(** * minibrain/burstcounter.py: burst detection on an RMS envelope

    A shallow embedding of [Burst] (its constructor, [__call__], [__len__]
    and [long_burst]) together with the fragments of Python and numpy the
    code relies on: truncating [int()], true division, negative-step
    slicing, [np.diff], [np.where], integer-array indexing and in-place
    element update.

    A Python number (a sample, a sampling rate) is modelled by the rational
    it denotes ([Q]).  The float divisions of the constructor
    ([srate/60], [1/mysrate], [0.005/dt]) round to binary64 as the
    interpreter does; inside [long_burst] the products [0.100*srate] and
    [0.250*srate] are taken exactly.  Sample indices are numpy [int64]
    values, modelled as [Z] without a bound.  [scipy.signal.find_peaks] and
    [ndarray.std] are library code and enter as parameters; so do the
    [minibrain.lfp] primitives ([band_pass], [decimate], [rms]), whose
    source is not part of this file's subject. *)

From Stdlib Require Import ZArith QArith Qround Qabs Qpower Lia Lqa.
From stdpp Require Import base list sorting gmap.

Local Open Scope Z_scope.

(** ** Exceptions and the error monad *)

Inductive exn : Type :=
| IndexError
| ZeroDivisionError
| OverflowError
| LibraryError.

Inductive result (A : Type) : Type :=
| Ok (a : A)
| Raise (e : exn).

Arguments Ok {A} a.
Arguments Raise {A} e.

#[global] Instance result_ret : MRet result := λ A a, Ok a.

#[global] Instance result_bind : MBind result :=
  λ A B f m, match m with Ok a => f a | Raise e => Raise e end.

(** ** Python numbers *)

(** [int(x)] on a float truncates toward zero. *)
Definition py_int (q : Q) : Z :=
  if Qle_bool 0 q then Qfloor q else Qceiling q.

(** [a < b] as a boolean. *)
Definition Qltb (a b : Q) : bool := negb (Qle_bool b a).

(** Python's [round(x)]: to the nearest integer, ties to the even one. *)
Definition py_round (q : Q) : Z :=
  let f := Qfloor q in
  let r := (q - inject_Z f)%Q in
  if Qltb r (1 # 2) then f
  else if Qltb (1 # 2) r then f + 1
  else if Z.even f then f else f + 1.

(** ** Python floats (IEEE 754 binary64) *)

(** A float is a finite value, given by the rational it denotes, or an
    infinity. *)
Inductive pyfloat : Type :=
| Fin (q : Q)
| Inf (negative : bool).

(** For [a > 0]: the [e] with [2^e <= a < 2^(e+1)]. *)
Definition float_exponent (a : Q) : Z :=
  let e0 := Z.log2 (Qnum a) - Z.log2 (Z.pos (Qden a)) in
  if Qle_bool (2 ^ e0) a then e0 else e0 - 1.

(** Rounding of a real result to binary64: to the nearest value with a
    53-bit significand, ties to the even one; exponents below -1022 give
    subnormal values (spacing [2^-1074]), and a rounded magnitude of
    [2^1024] or more gives an infinity. *)
Definition float_round (q : Q) : pyfloat :=
  if Qeq_bool q 0 then Fin 0 else
  let a := Qabs q in
  let e := Z.max (float_exponent a) (-1022) in
  let ulp := (2 ^ (e - 52))%Q in
  let r := (inject_Z (py_round (a / ulp)) * ulp)%Q in
  if Qle_bool (2 ^ 1024) r then Inf (negb (Qle_bool 0 q))
  else Fin (if Qle_bool 0 q then r else - r).

(** A float literal of the source text, such as [0.005]. *)
Definition float_lit (q : Q) : Q :=
  match float_round q with Fin r => r | Inf _ => 0 end.

(** [a / b] for a finite float (or small int) [a] and a float [b]: a zero
    divisor raises, an overflowing quotient is an infinity, and a finite
    value over an infinity is zero. *)
Definition py_truediv (a : Q) (b : pyfloat) : result pyfloat :=
  match b with
  | Fin b => if Qeq_bool b 0 then Raise ZeroDivisionError
             else Ok (float_round (a / b))
  | Inf _ => Ok (Fin 0)
  end.

(** [a / b] for a number [a] handed in by the caller (an int or a finite
    float) and an int [b]: the quotient rounded to the nearest float.  A
    float [a] cannot overflow here; for an int [a] too large the division
    raises [OverflowError]. *)
Definition py_number_div (a b : Q) : result Q :=
  if Qeq_bool b 0 then Raise ZeroDivisionError else
  match float_round (a / b) with
  | Fin q => Ok q
  | Inf _ => Raise OverflowError
  end.

(** [int(x)] on a float: an infinity raises [OverflowError]. *)
Definition float_int (f : pyfloat) : result Z :=
  match f with
  | Fin q => Ok (py_int q)
  | Inf _ => Raise OverflowError
  end.

(** ** numpy arrays as lists *)

(** [np.diff(p)]: successive differences. *)
Fixpoint np_diff (p : list Z) : list Z :=
  match p with
  | a :: (b :: _) as t => (b - a) :: np_diff t
  | _ => []
  end.

(** [np.where(mask)[0]]: the positions holding [True], in order. *)
Fixpoint np_where_from (i : Z) (mask : list bool) : list Z :=
  match mask with
  | [] => []
  | b :: mask' => (if b then [i] else []) ++ np_where_from (i + 1) mask'
  end.

Definition np_where (mask : list bool) : list Z := np_where_from 0 mask.

(** [a[i]] for an integer [i]: negative indices count from the end, and an
    index outside [-len, len) raises [IndexError]. *)
Definition py_getitem {A} (l : list A) (i : Z) : result A :=
  let n := Z.of_nat (length l) in
  let j := if i <? 0 then i + n else i in
  if (0 <=? j) && (j <? n) then
    match l !! Z.to_nat j with
    | Some a => Ok a
    | None => Raise IndexError
    end
  else Raise IndexError.

(** [p[ix]] for an integer array [ix]: a fresh array, one lookup per index. *)
Definition np_take (p : list Z) (ix : list Z) : result (list Z) :=
  mapM (py_getitem p) ix.

(** Clipping of one slice bound for a negative step, as CPython's
    [PySlice_AdjustIndices] does it. *)
Definition slice_adjust (n i : Z) : Z :=
  if i <? 0 then (if i + n <? 0 then -1 else i + n)
  else if n <=? i then n - 1 else i.

(** [l[start:stop:-1]]: the elements at [start', start'-1, ..., stop'+1]
    for the clipped bounds. *)
Definition slice_rev {A} (l : list A) (start stop : Z) : list A :=
  let n := Z.of_nat (length l) in
  let hi := slice_adjust n start in
  let lo := slice_adjust n stop in
  omap (λ k : nat, l !! Z.to_nat (hi - Z.of_nat k)) (seq 0 (Z.to_nat (hi - lo))).

(** ** The detector *)

Section Detector.

(** [rmsdata.std()] and [signal.find_peaks(x, height)[0]]. *)
Variable std : list Q → Q.
Variable find_peaks : list Q → Q → list Z.

(** One iteration of the loop over [enumerate(pstart)]:
    read 100 ms backward and move the start to the first sample below
    the threshold; an empty [val] raises [IndexError], which is passed
    over. *)
Definition start_step (rmsdata : list Q) (lowthr srate : Q)
    (pstart : list Z) (i : nat) : list Z :=
  match pstart !! i with
  | Some x =>
      let tmp := slice_rev rmsdata x (x - py_int (0.100 * srate)) in
      let val := np_where ((λ v, Qltb v lowthr) <$> tmp) in
      match val with
      | v0 :: _ => <[i := x - v0]> pstart
      | [] => pstart
      end
  | None => pstart
  end.

(** One iteration of the loop over [enumerate(pend)]: read 250 ms
    forward, from the outside in. *)
Definition end_step (rmsdata : list Q) (lowthr srate : Q)
    (pend : list Z) (i : nat) : list Z :=
  match pend !! i with
  | Some x =>
      let tmp := slice_rev rmsdata (x + py_int (0.250 * srate)) x in
      let val := np_where ((λ v, Qltb lowthr v) <$> tmp) in
      match val with
      | v0 :: _ => <[i := x + (py_int (0.250 * srate) - v0)]> pend
      | [] => pend
      end
  | None => pend
  end.

Definition long_burst (rmsdata : list Q) (srate : Q) : result (list (Z * Z)) :=
  let lowthr := std rmsdata in
  let highthr := (std rmsdata * 5)%Q in
  let p := find_peaks rmsdata highthr in
  let dx := np_diff p in
  let idx := np_where ((λ d, Qltb (1 * srate) (inject_Z d)) <$> dx) in
  let start := [0] ++ ((λ i, i + 1) <$> idx) in
  pstart ← np_take p start;
  let pstart :=
    foldl (start_step rmsdata lowthr srate) pstart (seq 0 (length pstart)) in
  let end_ := idx ++ [-1] in
  pend ← np_take p end_;
  let pend :=
    foldl (end_step rmsdata lowthr srate) pend (seq 0 (length pend)) in
  Ok (zip pstart pend).

End Detector.

(** ** The [Burst] object and the object store *)

(** A [Burst] instance has the single attribute [idx]. *)
Record Burst : Type := mkBurst { idx : list (Z * Z) }.

Section BurstClass.

Variable std : list Q → Q.
Variable find_peaks : list Q → Q → list Z.

(** The [minibrain.lfp] primitives: [band_pass data low high srate],
    [decimate data q] and [rms data segment].  Each may raise. *)
Variable band_pass : list Q → Q → Q → Q → result (list Q).
Variable decimate : list Q → Z → result (list Q).
Variable rms : list Q → Z → result (list Q).

(** Lines 44-48: [dt = 1/mysrate], [mysegment = 0.005/dt] and the
    [int(mysegment)] handed to [lfp.rms]. *)
Definition rms_segment (mysrate : Q) : result Z :=
  dt ← py_truediv 1 (Fin mysrate);
  mysegment ← py_truediv (float_lit 0.005) dt;
  float_int mysegment.

(** The body of [__init__]: the value bound to [self.idx].  [Nyquist]
    (line 36) is computed and never read; only its division is kept. *)
Definition Burst_init (data : option (list Q)) (srate : Q)
    : result (list (Z * Z)) :=
  match data with
  | Some data =>
      _ ← py_number_div srate 2;
      myrecBP ← band_pass data 90 250 srate;
      myrecDS ← decimate myrecBP 60;
      mysrate ← py_number_div srate 60;
      segment ← rms_segment mysrate;
      myrms ← rms myrecDS segment;
      long_burst std find_peaks myrms mysrate
  | None => Ok []
  end.

(** [env] is the envelope [myrms] the constructor computes from [data]. *)
Definition rms_envelope_of (data : list Q) (srate : Q) (env : list Q) : Prop :=
  ∃ myrecBP myrecDS mysrate segment,
    band_pass data 90 250 srate = Ok myrecBP ∧
    decimate myrecBP 60 = Ok myrecDS ∧
    py_number_div srate 60 = Ok mysrate ∧
    rms_segment mysrate = Ok segment ∧
    rms myrecDS segment = Ok env.

(** [Burst(data, srate)]: run [__init__] and, when it returns, store the
    new object at a fresh address.  A raising [__init__] leaves the store
    as it was. *)
Definition Burst_new (data : option (list Q)) (srate : Q)
    (h : gmap nat Burst) : result nat * gmap nat Burst :=
  match Burst_init data srate with
  | Ok i => let l := fresh (dom h) in (Ok l, <[l := mkBurst i]> h)
  | Raise e => (Raise e, h)
  end.

(** [self(data, srate)]: [return Burst(data, srate)]. *)
Definition Burst_call (self : nat) (data : option (list Q)) (srate : Q)
    (h : gmap nat Burst) : result nat * gmap nat Burst :=
  Burst_new data srate h.

(** [len(self)]. *)
Definition Burst_len (self : nat) (h : gmap nat Burst) : option nat :=
  (λ b, length (idx b)) <$> h !! self.

(** The module body: [burst = Burst(srate = 30000)]. *)
Definition module_init : result nat * gmap nat Burst :=
  Burst_new None 30000 ∅.

(** A sequence of calls made through one receiver, raising or not. *)
Definition run_calls (self : nat) (calls : list (option (list Q) * Q))
    (h : gmap nat Burst) : gmap nat Burst :=
  foldl (λ h c, (Burst_call self c.1 c.2 h).2) h calls.

End BurstClass.

(** ** Definitions used in the statements *)

(** What the start loop does to one provisional start [x]. *)
Definition refine_start (rmsdata : list Q) (lowthr srate : Q) (x : Z) : Z :=
  let tmp := slice_rev rmsdata x (x - py_int (0.100 * srate)) in
  match np_where ((λ v, Qltb v lowthr) <$> tmp) with
  | v0 :: _ => x - v0
  | [] => x
  end.

(** What the end loop does to one provisional end [x]. *)
Definition refine_end (rmsdata : list Q) (lowthr srate : Q) (x : Z) : Z :=
  let tmp := slice_rev rmsdata (x + py_int (0.250 * srate)) x in
  match np_where ((λ v, Qltb lowthr v) <$> tmp) with
  | v0 :: _ => x + (py_int (0.250 * srate) - v0)
  | [] => x
  end.

(** [dx > 1*srate] for one difference. *)
Definition large_gap (srate : Q) (d : Z) : bool :=
  Qltb (1 * srate) (inject_Z d).

(** The array [idx] of [long_burst]. *)
Definition large_gap_idx (srate : Q) (p : list Z) : list Z :=
  np_where (large_gap srate <$> np_diff p).

(** [pstart] and [pend] as selected from the peaks, before refinement. *)
Definition prov_starts (srate : Q) (p : list Z) : result (list Z) :=
  np_take p ([0] ++ ((λ i, i + 1) <$> large_gap_idx srate p)).

Definition prov_ends (srate : Q) (p : list Z) : result (list Z) :=
  np_take p (large_gap_idx srate p ++ [-1]).

(** The same selections by recursion on the peaks: a peak after a large
    gap opens a group, a peak before one closes a group. *)
Fixpoint starts_after (srate : Q) (a : Z) (rest : list Z) : list Z :=
  match rest with
  | [] => []
  | b :: rest' =>
      (if large_gap srate (b - a) then [b] else []) ++ starts_after srate b rest'
  end.

Fixpoint ends_from (srate : Q) (a : Z) (rest : list Z) : list Z :=
  match rest with
  | [] => [a]
  | b :: rest' =>
      (if large_gap srate (b - a) then [a] else []) ++ ends_from srate b rest'
  end.

(** The number of large gaps between consecutive peaks. *)
Fixpoint count_large_gaps (srate : Q) (p : list Z) : nat :=
  match p with
  | a :: (b :: _) as t =>
      ((if large_gap srate (b - a) then 1 else 0) + count_large_gaps srate t)%nat
  | _ => 0%nat
  end.

(** Two successive group starts: the later one lies more than one second
    of samples after the earlier one. *)
Definition gap_rel (srate : Q) (x y : Z) : Prop :=
  x < y ∧ (srate < inject_Z (y - x))%Q.

(** The peak set handed over by [find_peaks]: strictly increasing indices
    into the envelope. *)
Definition is_peak_set (rmsdata : list Q) (p : list Z) : Prop :=
  Sorted Z.lt p ∧ Forall (λ x, 0 ≤ x < Z.of_nat (length rmsdata)) p.

(** [n] samples, all zero except two. *)
Definition spikes (n i1 : nat) (v1 : Q) (i2 : nat) (v2 : Q) : list Q :=
  <[i2 := v2]> (<[i1 := v1]> (replicate n 0%Q)).

(** No sample reaches five standard deviations: mean 1, std 1. *)
Definition env_quiet : list Q := [0; 2; 0; 2]%Q.

(** 32 samples with mean 7/4 and std 8: one peak (45 > 40) and one
    sample just above the low threshold (11 > 8) two places after it. *)
Definition env_tail : list Q := spikes 32 29 45 31 11.
Definition env_mid : list Q := spikes 32 10 45 12 11.
Definition env_head : list Q := spikes 32 1 45 3 11.

(** 74 samples with mean 1 and std 6: two peaks of height 37 > 30. *)
Definition env_two : list Q := spikes 74 10 37 60 37.

(** [rmsdata[i] > lowthr] for an index inside the envelope. *)
Definition sample_above (rmsdata : list Q) (lowthr : Q) (i : Z) : bool :=
  (0 <=? i) &&
  match rmsdata !! Z.to_nat i with
  | Some v => Qltb lowthr v
  | None => false
  end.

(** The scan in the words of the specification: offsets [k = 1, 2, ...]
    counted from the far end of the window, offset 1 being the farthest
    sample [x + w]; the first offset whose sample is above the threshold. *)
Definition spec_end_offset (rmsdata : list Q) (lowthr : Q) (x w : Z)
    : option nat :=
  head (filter (λ k : nat,
                  sample_above rmsdata lowthr (x + w + 1 - Z.of_nat k) = true)
               (seq 1 (Z.to_nat w))).

(** The refined end the specification derives from that offset. *)
Definition spec_refined_end (rmsdata : list Q) (lowthr : Q) (x w : Z) : Z :=
  match spec_end_offset rmsdata lowthr x w with
  | Some k => x + (w - Z.of_nat k)
  | None => x
  end.

(** The end loop on one provisional end, against the specification's
    formula with its 1-indexed offset. *)
Definition one_indexed_end_claim (rmsdata : list Q) (lowthr srate : Q)
    (x : Z) : Prop :=
  end_step rmsdata lowthr srate [x] 0
  = [spec_refined_end rmsdata lowthr x (py_int (0.250 * srate))].

(** Lines 43-48 together: the segment handed to [lfp.rms] for the input
    rate [srate]. *)
Definition rms_window (srate : Q) : result Z :=
  mysrate ← py_number_div srate 60;
  rms_segment mysrate.

(** The window length as the specification words it. *)
Definition round_window_claim (srate : Q) : Prop :=
  rms_window srate = Ok (py_round (0.005 * (srate / 60))).

(** The body of the start loop for a window of [w] samples, [w] standing
    for the value of [int(0.100*srate)]. *)
Definition start_scan (rmsdata : list Q) (lowthr : Q) (w : Z)
    (pstart : list Z) (i : nat) : list Z :=
  match pstart !! i with
  | Some x =>
      let tmp := slice_rev rmsdata x (x - w) in
      let val := np_where ((λ v, Qltb v lowthr) <$> tmp) in
      match val with
      | v0 :: _ => <[i := x - v0]> pstart
      | [] => pstart
      end
  | None => pstart
  end.

(** Stand-ins for the three [lfp] primitives in the examples: each hands its
    data on unchanged. *)
Definition pass_band (data : list Q) (low high srate : Q) : result (list Q) :=
  Ok data.

Definition pass_decimate (data : list Q) (q : Z) : result (list Q) := Ok data.

Definition pass_rms (data : list Q) (segment : Z) : result (list Q) := Ok data.

(** * Properties *)

(** ** Slices *)

Lemma slice_adjust_range n i : 0 ≤ n → -1 ≤ slice_adjust n i ≤ n - 1.
Proof.
  intros Hn. unfold slice_adjust.
  repeat case_match; lia.
Qed.

Lemma omap_seq_total {A} (f : nat → option A) (s m : nat) :
  (∀ k, (k < m)%nat → is_Some (f (s + k)%nat)) →
  length (omap f (seq s m)) = m ∧
  ∀ k, (k < m)%nat → omap f (seq s m) !! k = f (s + k)%nat.
Proof.
  revert s. induction m as [|m IH]; intros s Hf.
  - split; [done | intros k Hk; lia].
  - destruct (Hf 0%nat ltac:(lia)) as [a Ha].
    rewrite Nat.add_0_r in Ha. simpl. rewrite Ha.
    destruct (IH (S s)) as [IHlen IHnth].
    { intros k Hk. replace (S s + k)%nat with (s + S k)%nat by lia.
      apply Hf. lia. }
    split; [cbn [length]; f_equal; exact IHlen |].
    intros [|k] Hk.
    + by rewrite Nat.add_0_r.
    + cbn [lookup list_lookup]. rewrite IHnth by lia. f_equal. lia.
Qed.

Section SliceFacts.

Context {A : Type}.
Implicit Types (l : list A) (start stop : Z).

Lemma slice_rev_spec l start stop :
  let hi := slice_adjust (Z.of_nat (length l)) start in
  let lo := slice_adjust (Z.of_nat (length l)) stop in
  length (slice_rev l start stop) = Z.to_nat (hi - lo) ∧
  ∀ k : nat, Z.of_nat k < hi - lo →
    slice_rev l start stop !! k = l !! Z.to_nat (hi - Z.of_nat k) ∧
    is_Some (l !! Z.to_nat (hi - Z.of_nat k)).
Proof.
  intros hi lo. unfold slice_rev. fold hi. fold lo.
  pose proof (slice_adjust_range (Z.of_nat (length l)) start ltac:(lia)) as Hhi.
  pose proof (slice_adjust_range (Z.of_nat (length l)) stop ltac:(lia)) as Hlo.
  fold hi in Hhi. fold lo in Hlo.
  assert (Hsome : ∀ k, (k < Z.to_nat (hi - lo))%nat →
            is_Some (l !! Z.to_nat (hi - Z.of_nat (0 + k)))).
  { intros k Hk. apply lookup_lt_is_Some. lia. }
  destruct (omap_seq_total
              (λ k : nat, l !! Z.to_nat (hi - Z.of_nat k)) 0 _ Hsome)
    as [Hlen Hnth].
  split; [exact Hlen |].
  intros k Hk. split.
  - rewrite Hnth by lia. done.
  - apply (Hsome k). lia.
Qed.

Lemma slice_rev_length l start stop :
  Z.of_nat (length (slice_rev l start stop)) =
  Z.max 0 (slice_adjust (Z.of_nat (length l)) start
           - slice_adjust (Z.of_nat (length l)) stop).
Proof.
  destruct (slice_rev_spec l start stop) as [-> _]. lia.
Qed.

End SliceFacts.

(** ** Comparisons on rationals *)

Lemma Qltb_lt (a b : Q) : Qltb a b = true ↔ (a < b)%Q.
Proof.
  unfold Qltb. rewrite negb_true_iff. split.
  - intros H. apply Qnot_le_lt. intros Hle.
    apply Qle_bool_iff in Hle. congruence.
  - intros H. destruct (Qle_bool b a) eqn:E; [|done].
    apply Qle_bool_iff in E. exfalso. by apply (Qlt_not_le a b).
Qed.

(** ** [np.where] *)

Lemma np_where_from_head (i : Z) (mask : list bool) :
  match np_where_from i mask with
  | [] => ∀ k : nat, mask !! k ≠ Some true
  | v0 :: _ =>
      ∃ k : nat, v0 = i + Z.of_nat k ∧ mask !! k = Some true ∧
                 ∀ j : nat, (j < k)%nat → mask !! j = Some false
  end.
Proof.
  revert i. induction mask as [|b mask IH]; intros i; simpl.
  - intros k. by rewrite lookup_nil.
  - destruct b; simpl.
    + exists 0%nat. split; [lia|]. split; [done|]. intros j Hj. lia.
    + specialize (IH (i + 1)).
      destruct (np_where_from (i + 1) mask) as [|v0 vs].
      * intros [|k]; [done | apply IH].
      * destruct IH as (k & -> & Hk & Hbefore).
        exists (S k). split; [lia|]. split; [done|].
        intros [|j] Hj; [done|]. apply Hbefore. lia.
Qed.

Lemma np_where_from_first (i : Z) (mask : list bool) (k : nat) :
  mask !! k = Some true →
  (∀ j : nat, (j < k)%nat → mask !! j = Some false) →
  ∃ vs, np_where_from i mask = (i + Z.of_nat k) :: vs.
Proof.
  intros Hk Hbefore. pose proof (np_where_from_head i mask) as H.
  destruct (np_where_from i mask) as [|v0 vs].
  - by destruct (H k).
  - destruct H as (k' & -> & Hk' & Hbefore'). exists vs.
    destruct (Nat.lt_trichotomy k k') as [Hlt | [-> | Hgt]]; [|done|].
    + apply Hbefore' in Hlt. congruence.
    + apply Hbefore in Hgt. congruence.
Qed.

(** ** The two refinement loops, element by element *)

(** A loop over [enumerate(a)] that only rewrites [a[i]] from the [x] it
    was handed is a map. *)
Lemma foldl_enumerate (step : list Z → nat → list Z) (g : Z → Z) :
  (∀ l i x, l !! i = Some x → step l i = <[i := g x]> l) →
  ∀ l, foldl step l (seq 0 (length l)) = g <$> l.
Proof.
  intros Hstep.
  assert (Hgen : ∀ post pre,
    foldl step ((g <$> pre) ++ post) (seq (length pre) (length post))
    = (g <$> pre) ++ (g <$> post)).
  { induction post as [|x post IH]; intros pre; [done|].
    cbn [length seq foldl].
    rewrite (Hstep _ _ x).
    2:{ rewrite lookup_app_r by (rewrite length_fmap; lia).
        rewrite length_fmap, Nat.sub_diag. done. }
    replace (<[length pre := g x]> ((g <$> pre) ++ x :: post))
      with ((g <$> (pre ++ [x])) ++ post).
    2:{ rewrite fmap_app, <- app_assoc. simpl.
        rewrite insert_app_r_alt by (rewrite length_fmap; lia).
        by rewrite length_fmap, Nat.sub_diag. }
    specialize (IH (pre ++ [x])).
    rewrite length_app in IH. simpl in IH.
    rewrite Nat.add_1_r in IH. rewrite IH.
    rewrite fmap_app, <- app_assoc. done. }
  intros l. apply (Hgen l []).
Qed.

Lemma start_loop_map rmsdata lowthr srate (pstart : list Z) :
  foldl (start_step rmsdata lowthr srate) pstart (seq 0 (length pstart))
  = refine_start rmsdata lowthr srate <$> pstart.
Proof.
  apply foldl_enumerate. intros l i x Hx.
  unfold start_step, refine_start. rewrite Hx. cbv zeta.
  destruct (np_where _) as [|v0 vs]; [|done].
  symmetry. by apply list_insert_id.
Qed.

Lemma end_loop_map rmsdata lowthr srate (pend : list Z) :
  foldl (end_step rmsdata lowthr srate) pend (seq 0 (length pend))
  = refine_end rmsdata lowthr srate <$> pend.
Proof.
  apply foldl_enumerate. intros l i x Hx.
  unfold end_step, refine_end. rewrite Hx. cbv zeta.
  destruct (np_where _) as [|v0 vs]; [|done].
  symmetry. by apply list_insert_id.
Qed.

(** ** Lengths of the two scan windows *)

Lemma back_window_le n x w :
  0 ≤ n → 0 ≤ w → slice_adjust n x - slice_adjust n (x - w) ≤ w.
Proof. intros. unfold slice_adjust. repeat case_match; lia. Qed.

Lemma back_window_le_pos n x w :
  0 ≤ x < n → slice_adjust n x - slice_adjust n (x - w) ≤ x + 1.
Proof. intros. unfold slice_adjust. repeat case_match; lia. Qed.

Lemma back_window_none n x w :
  0 ≤ n → 0 ≤ x → w ≤ 0 → slice_adjust n x - slice_adjust n (x - w) ≤ 0.
Proof. intros. unfold slice_adjust. repeat case_match; lia. Qed.


Lemma fwd_window_inside n x w :
  0 ≤ x → 0 ≤ w → x + w < n →
  slice_adjust n (x + w) = x + w ∧ slice_adjust n x = x.
Proof. intros. unfold slice_adjust. repeat case_match; lia. Qed.

(** ** What one refinement step can return *)

Lemma refine_start_cases rmsdata lowthr srate x :
  let tmp := slice_rev rmsdata x (x - py_int (0.100 * srate)) in
  refine_start rmsdata lowthr srate x = x ∨
  ∃ k : nat, (k < length tmp)%nat ∧
             refine_start rmsdata lowthr srate x = x - Z.of_nat k.
Proof.
  intros tmp. unfold refine_start. fold tmp. unfold np_where.
  pose proof (np_where_from_head 0 ((λ v, Qltb v lowthr) <$> tmp)) as H.
  destruct (np_where_from 0 _) as [|v0 vs]; [by left | right].
  destruct H as (k & -> & Hk & _). exists k. split; [|f_equal; lia].
  apply lookup_lt_Some in Hk. by rewrite length_fmap in Hk.
Qed.

Lemma refine_end_cases rmsdata lowthr srate x :
  let w := py_int (0.250 * srate) in
  let tmp := slice_rev rmsdata (x + w) x in
  refine_end rmsdata lowthr srate x = x ∨
  ∃ k : nat, (k < length tmp)%nat ∧
             refine_end rmsdata lowthr srate x = x + (w - Z.of_nat k).
Proof.
  intros w tmp. unfold refine_end. fold w. fold tmp. unfold np_where.
  pose proof (np_where_from_head 0 ((λ v, Qltb lowthr v) <$> tmp)) as H.
  destruct (np_where_from 0 _) as [|v0 vs]; [by left | right].
  destruct H as (k & -> & Hk & _). exists k. split; [|f_equal; lia].
  apply lookup_lt_Some in Hk. by rewrite length_fmap in Hk.
Qed.

Lemma refine_start_le rmsdata lowthr srate x :
  refine_start rmsdata lowthr srate x ≤ x.
Proof.
  destruct (refine_start_cases rmsdata lowthr srate x) as [-> | (k & _ & ->)]; lia.
Qed.


Lemma refine_start_gt_window rmsdata lowthr srate x :
  0 ≤ x →
  x - Z.max 0 (py_int (0.100 * srate) - 1)
    ≤ refine_start rmsdata lowthr srate x.
Proof.
  intros Hx.
  destruct (refine_start_cases rmsdata lowthr srate x) as [-> | (k & Hk & ->)];
    [lia|].
  apply Nat2Z.inj_lt in Hk. rewrite slice_rev_length in Hk.
  destruct (Z.le_gt_cases 0 (py_int (0.100 * srate))) as [Hw | Hw].
  - pose proof (back_window_le (Z.of_nat (length rmsdata)) x _ ltac:(lia) Hw).
    lia.
  - pose proof (back_window_none (Z.of_nat (length rmsdata)) x
                  (py_int (0.100 * srate)) ltac:(lia) Hx ltac:(lia)).
    lia.
Qed.

Lemma refine_start_nonneg rmsdata lowthr srate x :
  0 ≤ x < Z.of_nat (length rmsdata) →
  0 ≤ refine_start rmsdata lowthr srate x.
Proof.
  intros Hx.
  destruct (refine_start_cases rmsdata lowthr srate x) as [-> | (k & Hk & ->)];
    [lia|].
  apply Nat2Z.inj_lt in Hk. rewrite slice_rev_length in Hk.
  pose proof (back_window_le_pos _ x (py_int (0.100 * srate)) Hx). lia.
Qed.

Lemma refine_end_le_window rmsdata lowthr srate x :
  0 ≤ py_int (0.250 * srate) →
  refine_end rmsdata lowthr srate x ≤ x + py_int (0.250 * srate).
Proof.
  intros Hw.
  destruct (refine_end_cases rmsdata lowthr srate x) as [-> | (k & _ & ->)]; lia.
Qed.

(** ** [int()] of a scaled rate *)

Lemma py_int_nonneg (q : Q) : (0 <= q)%Q → 0 ≤ py_int q.
Proof.
  intros Hq. unfold py_int.
  apply Qle_bool_iff in Hq as Hb. rewrite Hb.
  change 0 with (Qfloor 0). by apply Qfloor_resp_le.
Qed.

Lemma py_int_le (q : Q) : (0 <= q)%Q → (inject_Z (py_int q) <= q)%Q.
Proof.
  intros Hq. unfold py_int.
  apply Qle_bool_iff in Hq as Hb. rewrite Hb. apply Qfloor_le.
Qed.

Lemma py_int_neg (q : Q) : (q < 0)%Q → py_int q ≤ 0.
Proof.
  intros Hq. unfold py_int.
  destruct (Qle_bool 0 q) eqn:Hb.
  - apply Qle_bool_iff in Hb. exfalso. by apply (Qlt_not_le q 0).
  - change 0 with (Qceiling 0). apply Qceiling_resp_le. by apply Qlt_le_weak.
Qed.

(** ** Grouping of the peaks *)

Lemma np_diff_cons2 a b t : np_diff (a :: b :: t) = (b - a) :: np_diff (b :: t).
Proof. reflexivity. Qed.

Lemma count_large_gaps_cons2 srate a b t :
  count_large_gaps srate (a :: b :: t)
  = ((if large_gap srate (b - a) then 1 else 0)
     + count_large_gaps srate (b :: t))%nat.
Proof. reflexivity. Qed.

Lemma py_getitem_at {A} (pre : list A) (a : A) (post : list A) :
  py_getitem (pre ++ a :: post) (Z.of_nat (length pre)) = Ok a.
Proof.
  unfold py_getitem. rewrite length_app. cbn [length].
  rewrite (proj2 (Z.ltb_ge _ _)) by lia.
  rewrite (proj2 (Z.leb_le _ _)) by lia.
  rewrite (proj2 (Z.ltb_lt _ _)) by lia.
  cbn [andb]. rewrite Nat2Z.id. by rewrite list_lookup_middle.
Qed.

Lemma py_getitem_last {A} (pre : list A) (a : A) :
  py_getitem (pre ++ [a]) (-1) = Ok a.
Proof.
  unfold py_getitem. rewrite length_app. cbn [length].
  rewrite (proj2 (Z.ltb_lt (-1) 0)) by lia.
  rewrite (proj2 (Z.leb_le _ _)) by lia.
  rewrite (proj2 (Z.ltb_lt _ _)) by lia.
  cbn [andb].
  replace (Z.to_nat (-1 + Z.of_nat (length pre + 1))) with (length pre) by lia.
  by rewrite list_lookup_middle.
Qed.

Lemma np_take_cons p i ix :
  np_take p (i :: ix)
  = (y ← py_getitem p i; k ← np_take p ix; mret (y :: k)).
Proof. reflexivity. Qed.

Lemma take_starts srate rest : ∀ pre a,
  np_take (pre ++ a :: rest)
    ((λ i, i + 1) <$> np_where_from (Z.of_nat (length pre))
                        (large_gap srate <$> np_diff (a :: rest)))
  = Ok (starts_after srate a rest).
Proof.
  induction rest as [|b rest IH]; intros pre a; [done|].
  rewrite np_diff_cons2. cbn [fmap list_fmap np_where_from starts_after].
  specialize (IH (pre ++ [a]) b).
  rewrite <- app_assoc, length_app in IH. cbn [app length] in IH.
  replace (Z.of_nat (length pre + 1)) with (Z.of_nat (length pre) + 1)
    in IH by lia.
  destruct (large_gap srate (b - a)); cbn [app fmap list_fmap].
  - rewrite np_take_cons.
    assert (py_getitem (pre ++ a :: b :: rest) (Z.of_nat (length pre) + 1)
            = Ok b) as ->.
    { pose proof (py_getitem_at (pre ++ [a]) b rest) as Hb.
      rewrite <- app_assoc, length_app in Hb. cbn [app length] in Hb.
      rewrite <- Hb. f_equal. lia. }
    unfold fmap in IH |- *. rewrite IH. done.
  - unfold fmap in IH |- *. exact IH.
Qed.

Lemma take_ends srate rest : ∀ pre a,
  np_take (pre ++ a :: rest)
    (np_where_from (Z.of_nat (length pre))
       (large_gap srate <$> np_diff (a :: rest)) ++ [-1])
  = Ok (ends_from srate a rest).
Proof.
  induction rest as [|b rest IH]; intros pre a.
  - cbn [np_diff fmap list_fmap np_where_from app ends_from].
    rewrite np_take_cons, py_getitem_last. done.
  - rewrite np_diff_cons2. cbn [fmap list_fmap np_where_from ends_from].
    specialize (IH (pre ++ [a]) b).
    rewrite <- app_assoc, length_app in IH. cbn [app length] in IH.
    replace (Z.of_nat (length pre + 1)) with (Z.of_nat (length pre) + 1)
      in IH by lia.
    destruct (large_gap srate (b - a)); cbn [app].
    + rewrite np_take_cons, py_getitem_at.
      unfold fmap in IH |- *. rewrite IH. done.
    + unfold fmap in IH |- *. exact IH.
Qed.

Lemma prov_starts_cons srate a rest :
  prov_starts srate (a :: rest) = Ok (a :: starts_after srate a rest).
Proof.
  unfold prov_starts, large_gap_idx, np_where. cbn [app].
  rewrite np_take_cons.
  change (py_getitem (a :: rest) 0) with (Ok a).
  pose proof (take_starts srate rest [] a) as H. cbn [app length] in H.
  change (Z.of_nat 0) with 0 in H.
  cbn [mbind result_bind]. rewrite H. done.
Qed.

Lemma prov_ends_cons srate a rest :
  prov_ends srate (a :: rest) = Ok (ends_from srate a rest).
Proof.
  unfold prov_ends, large_gap_idx, np_where.
  exact (take_ends srate rest [] a).
Qed.

Lemma starts_after_length srate a rest :
  length (starts_after srate a rest) = count_large_gaps srate (a :: rest).
Proof.
  revert a. induction rest as [|b rest IH]; intros a; [done|].
  rewrite count_large_gaps_cons2. cbn [starts_after].
  rewrite length_app, IH. by destruct (large_gap srate (b - a)).
Qed.

Lemma ends_from_length srate a rest :
  length (ends_from srate a rest) = S (count_large_gaps srate (a :: rest)).
Proof.
  revert a. induction rest as [|b rest IH]; intros a; [done|].
  rewrite count_large_gaps_cons2. cbn [ends_from].
  rewrite length_app, IH. destruct (large_gap srate (b - a)); simpl; lia.
Qed.

(** ** [long_burst] as selection followed by two maps *)

Lemma long_burst_eq std find_peaks rmsdata srate :
  long_burst std find_peaks rmsdata srate =
  (pstart ← prov_starts srate (find_peaks rmsdata (std rmsdata * 5)%Q);
   pend ← prov_ends srate (find_peaks rmsdata (std rmsdata * 5)%Q);
   Ok (zip (refine_start rmsdata (std rmsdata) srate <$> pstart)
           (refine_end rmsdata (std rmsdata) srate <$> pend))).
Proof.
  unfold long_burst, prov_starts, prov_ends, large_gap_idx, large_gap.
  cbv zeta.
  destruct (np_take _ ([0] ++ _)) as [pstart|e]; [|done].
  cbn [mbind result_bind].
  destruct (np_take _ (_ ++ [-1])) as [pend|e]; [|done].
  rewrite start_loop_map. cbn [mbind result_bind].
  by rewrite end_loop_map.
Qed.

Lemma long_burst_nil std find_peaks rmsdata srate :
  find_peaks rmsdata (std rmsdata * 5)%Q = [] →
  long_burst std find_peaks rmsdata srate = Raise IndexError.
Proof.
  intros Hp. rewrite long_burst_eq, Hp. reflexivity.
Qed.

Lemma long_burst_peaks std find_peaks rmsdata srate a rest :
  find_peaks rmsdata (std rmsdata * 5)%Q = a :: rest →
  long_burst std find_peaks rmsdata srate =
  Ok (zip (refine_start rmsdata (std rmsdata) srate
             <$> a :: starts_after srate a rest)
          (refine_end rmsdata (std rmsdata) srate
             <$> ends_from srate a rest)).
Proof.
  intros Hp. rewrite long_burst_eq, Hp, prov_starts_cons, prov_ends_cons. done.
Qed.

Lemma long_burst_Ok_peaks std find_peaks rmsdata srate a rest res :
  find_peaks rmsdata (std rmsdata * 5)%Q = a :: rest →
  long_burst std find_peaks rmsdata srate = Ok res →
  res = zip (refine_start rmsdata (std rmsdata) srate
               <$> a :: starts_after srate a rest)
            (refine_end rmsdata (std rmsdata) srate
               <$> ends_from srate a rest).
Proof.
  intros Hp Hres. rewrite (long_burst_peaks _ _ _ _ a rest Hp) in Hres.
  congruence.
Qed.


(** ** Positions of the large gaps *)

Lemma large_gap_lt srate d :
  large_gap srate d = true ↔ (srate < inject_Z d)%Q.
Proof.
  unfold large_gap. rewrite Qltb_lt. by rewrite Qmult_1_l.
Qed.

Lemma elem_of_np_where_from (i : Z) (mask : list bool) (v : Z) :
  v ∈ np_where_from i mask ↔
  ∃ k : nat, v = i + Z.of_nat k ∧ mask !! k = Some true.
Proof.
  revert i. induction mask as [|b mask IH]; intros i; cbn [np_where_from].
  - split; [by intros ?%elem_of_nil | by intros (k & _ & ?)].
  - rewrite elem_of_app, IH. split.
    + intros [Hv | (k & -> & Hk)].
      * destruct b; [|by apply elem_of_nil in Hv].
        apply list_elem_of_singleton in Hv as ->.
        exists 0%nat. split; [lia | done].
      * exists (S k). split; [lia | done].
    + intros ([|k] & -> & Hk).
      * left. injection Hk as ->. apply list_elem_of_singleton. lia.
      * right. exists k. split; [lia | done].
Qed.

Lemma np_diff_lookup (p : list Z) (i : nat) (d : Z) :
  np_diff p !! i = Some d ↔
  ∃ a b, p !! i = Some a ∧ p !! S i = Some b ∧ d = b - a.
Proof.
  revert i. induction p as [|a t IH]; intros i.
  - split; [done | by intros (? & ? & ? & _)].
  - destruct t as [|b t].
    + split; [done|]. intros (? & ? & _ & H & _). done.
    + rewrite np_diff_cons2. destruct i as [|i].
      * split.
        -- intros [= <-]. by exists a, b.
        -- intros (a' & b' & [= <-] & [= <-] & ->). done.
      * cbn [lookup list_lookup]. apply IH.
Qed.

Lemma large_gap_idx_length srate p :
  length (large_gap_idx srate p) = count_large_gaps srate p.
Proof.
  unfold large_gap_idx, np_where. generalize 0.
  induction p as [|a t IH]; intros i; [done|].
  destruct t as [|b t]; [done|].
  rewrite np_diff_cons2, count_large_gaps_cons2.
  cbn [fmap list_fmap np_where_from]. rewrite length_app.
  unfold fmap in IH. rewrite IH. by destruct (large_gap srate (b - a)).
Qed.

Lemma elem_of_large_gap_idx srate p (i : nat) :
  Z.of_nat i ∈ large_gap_idx srate p ↔
  ∃ a b, p !! i = Some a ∧ p !! S i = Some b ∧ (srate < inject_Z (b - a))%Q.
Proof.
  unfold large_gap_idx, np_where. rewrite elem_of_np_where_from. split.
  - intros (k & Hk & Hm). assert (k = i) as -> by lia.
    rewrite list_lookup_fmap in Hm.
    destruct (np_diff p !! i) as [d|] eqn:Hd; [|done].
    injection Hm as Hm. apply np_diff_lookup in Hd as (a & b & Ha & Hb & ->).
    exists a, b. by rewrite <- large_gap_lt.
  - intros (a & b & Ha & Hb & Hlt). exists i. split; [lia|].
    rewrite list_lookup_fmap.
    rewrite (proj2 (np_diff_lookup p i (b - a))) by eauto.
    simpl. f_equal. by apply large_gap_lt.
Qed.

(** ** Order of the provisional and refined starts *)

Lemma Sorted_lookup_succ {A} (R : A → A → Prop) (l : list A) i x y :
  Sorted R l → l !! i = Some x → l !! S i = Some y → R x y.
Proof.
  intros Hs. revert i. induction Hs as [|a l Hs IH Hhd]; intros i Hx Hy; [done|].
  destruct i as [|i].
  - injection Hx as ->. destruct Hhd as [|b l' Hab]; [done|].
    by injection Hy as ->.
  - by apply (IH i).
Qed.

Lemma starts_after_sorted srate rest : ∀ a a0,
  a0 ≤ a → Sorted Z.lt (a :: rest) →
  Sorted (gap_rel srate) (a0 :: starts_after srate a rest).
Proof.
  induction rest as [|b rest IH]; intros a a0 Ha0 Hs.
  - repeat constructor.
  - apply Sorted_inv in Hs as [Hs Hhd]. apply HdRel_inv in Hhd.
    cbn [starts_after]. destruct (large_gap srate (b - a)) eqn:Hg; cbn [app].
    + constructor; [by apply IH|]. constructor. split; [lia|].
      apply large_gap_lt in Hg. eapply Qlt_le_trans; [exact Hg|].
      rewrite <- Zle_Qle. lia.
    + apply IH; [lia | done].
Qed.

Lemma starts_after_Forall (P : Z → Prop) srate rest : ∀ a,
  Forall P rest → Forall P (starts_after srate a rest).
Proof.
  induction rest as [|b rest IH]; intros a H; [constructor|].
  apply Forall_cons in H as [Hb H]. cbn [starts_after].
  apply Forall_app. split; [|by apply IH].
  destruct (large_gap srate (b - a)); by repeat constructor.
Qed.

Lemma window_below_gap srate (d : Z) :
  0 < d → (srate < inject_Z d)%Q →
  Z.max 0 (py_int (0.100 * srate) - 1) < d.
Proof.
  intros Hd Hlt.
  destruct (Qlt_le_dec srate 0) as [Hneg | Hpos].
  - assert (py_int (0.100 * srate) ≤ 0); [|lia].
    apply py_int_neg. lra.
  - assert (inject_Z (py_int (0.100 * srate)) <= 0.100 * srate)%Q as Hw
      by (apply py_int_le; lra).
    assert (inject_Z (py_int (0.100 * srate)) < inject_Z d)%Q as Hwd by lra.
    rewrite <- Zlt_Qlt in Hwd. lia.
Qed.

Lemma refine_start_mono rmsdata lowthr srate x y :
  gap_rel srate x y → 0 ≤ y →
  refine_start rmsdata lowthr srate x < refine_start rmsdata lowthr srate y.
Proof.
  intros [Hxy Hgap] Hy.
  pose proof (refine_start_le rmsdata lowthr srate x).
  pose proof (refine_start_gt_window rmsdata lowthr srate y Hy).
  pose proof (window_below_gap srate (y - x) ltac:(lia) Hgap).
  lia.
Qed.

Lemma refine_starts_sorted rmsdata lowthr srate (l : list Z) :
  Sorted (gap_rel srate) l → Forall (λ x, 0 ≤ x) l →
  Sorted Z.lt (refine_start rmsdata lowthr srate <$> l).
Proof.
  induction 1 as [|a l Hs IH Hhd]; intros Hpos; [constructor|].
  apply Forall_cons in Hpos as [Ha Hpos].
  rewrite fmap_cons. constructor; [by apply IH|].
  destruct Hhd as [|b l' Hab]; [constructor|].
  rewrite fmap_cons. constructor.
  apply Forall_cons in Hpos as [Hb _]. by apply refine_start_mono.
Qed.

(** ** Detection results *)

(** C1 (as the code behaves).  When no sample qualifies as a peak,
    [long_burst] does not return an empty list: the selection
    [p[start]] with [start = [0]] indexes the empty peak array and raises
    [IndexError]. *)
Theorem long_burst_no_peak_raises std find_peaks rmsdata srate :
  find_peaks rmsdata (std rmsdata * 5)%Q = [] →
  long_burst std find_peaks rmsdata srate = Raise IndexError.
Proof. apply long_burst_nil. Qed.

Lemma long_burst_no_peak_raises_witness :
  long_burst (λ _, 1%Q) (λ _ _, []) env_quiet 500 = Raise IndexError.
Proof.
  apply (long_burst_no_peak_raises (λ _, 1%Q) (λ _ _, []) env_quiet 500).
  reflexivity.
Defined.


(** C7.  On a peak set (strictly increasing indices into the envelope) the
    starts of successive intervals are strictly increasing, also after the
    start refinement. *)
Theorem starts_strictly_increasing std find_peaks rmsdata srate res :
  is_peak_set rmsdata (find_peaks rmsdata (std rmsdata * 5)%Q) →
  long_burst std find_peaks rmsdata srate = Ok res →
  ∀ (i : nat) (s1 e1 s2 e2 : Z),
    res !! i = Some (s1, e1) → res !! S i = Some (s2, e2) → s1 < s2.
Proof.
  intros [Hsorted Hrange] Hres i s1 e1 s2 e2 H1 H2.
  destruct (find_peaks rmsdata (std rmsdata * 5)%Q) as [|a rest] eqn:Hp.
  { rewrite (long_burst_nil _ _ _ _ Hp) in Hres. discriminate. }
  pose proof (long_burst_Ok_peaks _ _ _ _ _ _ _ Hp Hres) as ->.
  assert (Hstarts : Sorted Z.lt
            (refine_start rmsdata (std rmsdata) srate
               <$> a :: starts_after srate a rest)).
  { apply refine_starts_sorted.
    - apply starts_after_sorted; [lia | done].
    - apply Forall_cons in Hrange as [Ha Hrest]. constructor; [lia|].
      apply starts_after_Forall.
      eapply Forall_impl; [exact Hrest|]. simpl. lia. }
  apply lookup_zip_with_Some in H1 as (x1 & y1 & [= -> ->] & Hx1 & _).
  apply lookup_zip_with_Some in H2 as (x2 & y2 & [= -> ->] & Hx2 & _).
  exact (Sorted_lookup_succ _ _ _ _ _ Hstarts Hx1 Hx2).
Qed.



Lemma starts_strictly_increasing_witness : 9 < 59.
Proof.
  apply (starts_strictly_increasing (λ _, 6%Q) (λ _ _, [10; 60]) env_two 20
           [(9, 10); (59, 60)]) with (i := 0%nat) (e1 := 10) (e2 := 60).
  - split.
    + repeat constructor.
    + repeat constructor; simpl; lia.
  - vm_compute. reflexivity.
  - reflexivity.
  - reflexivity.
Defined.


(** The start of [env_head] stays at the peak although the sample before
    it, at index 0, is below the low threshold. *)
Example env_head_start_kept :
  long_burst (λ _, 8%Q) (λ _ _, [1]) env_head 20 = Ok [(1, 3)] ∧
  env_head !! 0%nat = Some 0%Q ∧ Qltb 0 8 = true.
Proof. vm_compute. done. Qed.

(** ** The forward scan, offsets and the end of the envelope *)

Lemma fwd_slice_lookup (rmsdata : list Q) x w (k : nat) :
  0 ≤ x → 0 ≤ w → x + w < Z.of_nat (length rmsdata) → Z.of_nat k < w →
  slice_rev rmsdata (x + w) x !! k = rmsdata !! Z.to_nat (x + w - Z.of_nat k).
Proof.
  intros Hx Hw Hn Hk.
  destruct (fwd_window_inside (Z.of_nat (length rmsdata)) x w Hx Hw Hn)
    as [Hhi Hlo].
  destruct (slice_rev_spec rmsdata (x + w) x) as [_ Hnth].
  rewrite Hhi, Hlo in Hnth. destruct (Hnth k ltac:(lia)) as [-> _]. done.
Qed.

Lemma fwd_mask_lookup (rmsdata : list Q) lowthr x w (k : nat) :
  0 ≤ x → 0 ≤ w → x + w < Z.of_nat (length rmsdata) → Z.of_nat k < w →
  ((λ v, Qltb lowthr v) <$> slice_rev rmsdata (x + w) x) !! k
  = Some (sample_above rmsdata lowthr (x + w - Z.of_nat k)).
Proof.
  intros Hx Hw Hn Hk.
  rewrite list_lookup_fmap, fwd_slice_lookup by done.
  unfold sample_above. rewrite (proj2 (Z.leb_le _ _)) by lia. cbn [andb].
  destruct (rmsdata !! Z.to_nat (x + w - Z.of_nat k)) as [v|] eqn:Hv; [done|].
  apply lookup_ge_None in Hv. lia.
Qed.

(** C2 (as amended).  For a provisional end [x] whose 250 ms window lies
    inside the envelope, the scan tests [x + w], [x + w - 1], ..., [x + 1]
    in that order; when the first sample above [lowthr] is found at offset
    [k] counted from zero at the far end, the end becomes [x + (w - k)],
    the index of that sample; when no sample of the window is above
    [lowthr], the end is left as it was. *)
Theorem end_scan_zero_indexed rmsdata lowthr srate (pend : list Z)
    (i : nat) (x : Z) :
  pend !! i = Some x →
  0 ≤ x →
  0 ≤ py_int (0.250 * srate) →
  x + py_int (0.250 * srate) < Z.of_nat (length rmsdata) →
  (∀ k : nat,
     Z.of_nat k < py_int (0.250 * srate) →
     sample_above rmsdata lowthr (x + py_int (0.250 * srate) - Z.of_nat k)
       = true →
     (∀ j : nat, (j < k)%nat →
        sample_above rmsdata lowthr (x + py_int (0.250 * srate) - Z.of_nat j)
          = false) →
     end_step rmsdata lowthr srate pend i
       = <[i := x + (py_int (0.250 * srate) - Z.of_nat k)]> pend) ∧
  ((∀ j : nat, Z.of_nat j < py_int (0.250 * srate) →
      sample_above rmsdata lowthr (x + py_int (0.250 * srate) - Z.of_nat j)
        = false) →
   end_step rmsdata lowthr srate pend i = pend).
Proof.
  intros Hi Hx Hw Hn. set (w := py_int (0.250 * srate)) in *. split.
  - intros k Hk Habove Hbefore.
    unfold end_step. rewrite Hi. cbv zeta. fold w. unfold np_where.
    destruct (np_where_from_first 0
                ((λ v, Qltb lowthr v) <$> slice_rev rmsdata (x + w) x) k)
      as [vs ->].
    + rewrite fwd_mask_lookup by done. by rewrite Habove.
    + intros j Hj. rewrite fwd_mask_lookup by (done || lia).
      by rewrite Hbefore.
    + done.
  - intros Hnone.
    unfold end_step. rewrite Hi. cbv zeta. fold w. unfold np_where.
    pose proof (np_where_from_head 0
                  ((λ v, Qltb lowthr v) <$> slice_rev rmsdata (x + w) x)) as H.
    destruct (np_where_from 0 _) as [|v0 vs]; [done|].
    destruct H as (k & _ & Hk & _). exfalso.
    assert (Z.of_nat k < w) as Hkw.
    { apply lookup_lt_Some in Hk. rewrite length_fmap in Hk.
      apply Nat2Z.inj_lt in Hk. rewrite slice_rev_length in Hk.
      destruct (fwd_window_inside (Z.of_nat (length rmsdata)) x w Hx Hw Hn)
        as [Hhi Hlo].
      rewrite Hhi, Hlo in Hk. lia. }
    rewrite fwd_mask_lookup in Hk by done.
    rewrite Hnone in Hk by done. discriminate.
Qed.

Lemma end_scan_zero_indexed_witness :
  (∀ k : nat,
     Z.of_nat k < py_int (0.250 * 20) →
     sample_above env_mid 8 (10 + py_int (0.250 * 20) - Z.of_nat k) = true →
     (∀ j : nat, (j < k)%nat →
        sample_above env_mid 8 (10 + py_int (0.250 * 20) - Z.of_nat j)
          = false) →
     end_step env_mid 8 20 [10] 0
       = <[0%nat := 10 + (py_int (0.250 * 20) - Z.of_nat k)]> [10]) ∧
  ((∀ j : nat, Z.of_nat j < py_int (0.250 * 20) →
      sample_above env_mid 8 (10 + py_int (0.250 * 20) - Z.of_nat j)
        = false) →
   end_step env_mid 8 20 [10] 0 = [10]).
Proof.
  apply (end_scan_zero_indexed env_mid 8 20 [10] 0 10).
  - reflexivity.
  - lia.
  - vm_compute. discriminate.
  - vm_compute. reflexivity.
Defined.

(** C2 (as stated) fails: in [env_mid] the first sample above the
    threshold is the fourth one from the far end of the window, so the
    1-indexed formula gives [10 + (5 - 4) = 11], while the code moves the
    end to 12, where that sample is. *)
Lemma one_indexed_end_claim_fails :
  spec_end_offset env_mid 8 10 (py_int (0.250 * 20)) = Some 4%nat ∧
  long_burst (λ _, 8%Q) (λ _ _, [10]) env_mid 20 = Ok [(9, 12)] ∧
  ¬ one_indexed_end_claim env_mid 8 20 10.
Proof.
  split; [vm_compute; reflexivity|].
  split; [vm_compute; reflexivity|].
  unfold one_indexed_end_claim. vm_compute. discriminate.
Qed.

(** When the window reaches past the envelope the slice starts at the last
    sample, but the offset is still subtracted from the full window. *)
Lemma refine_end_clipped (rmsdata : list Q) lowthr srate x v :
  0 ≤ x < Z.of_nat (length rmsdata) - 1 →
  Z.of_nat (length rmsdata) ≤ x + py_int (0.250 * srate) →
  rmsdata !! (length rmsdata - 1)%nat = Some v →
  (lowthr < v)%Q →
  refine_end rmsdata lowthr srate x = x + py_int (0.250 * srate).
Proof.
  intros Hx Hw Hv Hlt. unfold refine_end, np_where.
  set (w := py_int (0.250 * srate)) in *.
  destruct (slice_rev_spec rmsdata (x + w) x) as [_ Hnth].
  assert (slice_adjust (Z.of_nat (length rmsdata)) (x + w)
          = Z.of_nat (length rmsdata) - 1) as Hhi
    by (unfold slice_adjust; repeat case_match; lia).
  assert (slice_adjust (Z.of_nat (length rmsdata)) x = x) as Hlo
    by (unfold slice_adjust; repeat case_match; lia).
  rewrite Hhi, Hlo in Hnth.
  destruct (Hnth 0%nat ltac:(lia)) as [H0 _].
  replace (Z.to_nat (Z.of_nat (length rmsdata) - 1 - Z.of_nat 0))
    with (length rmsdata - 1)%nat in H0 by lia.
  destruct (np_where_from_first 0
              ((λ v, Qltb lowthr v) <$> slice_rev rmsdata (x + w) x) 0)
    as [vs ->].
  - rewrite list_lookup_fmap, H0, Hv. simpl. f_equal. by apply Qltb_lt.
  - intros j Hj. lia.
  - simpl. lia.
Qed.

(** C5 (as the code behaves).  The envelope [env_tail] has 32 samples and
    its peak at index 29; at 500 samples per second the refined end is
    [29 + 125 = 154], which is not an index into the envelope. *)
Theorem end_index_past_envelope :
  long_burst (λ _, 8%Q) (λ _ _, [29]) env_tail 500 = Ok [(28, 154)] ∧
  length env_tail = 32%nat.
Proof. vm_compute. done. Qed.

(** ** Rounding to binary64 *)

Lemma py_round_error (t : Q) :
  (t - (1 # 2) <= inject_Z (py_round t) <= t + (1 # 2))%Q.
Proof.
  unfold py_round.
  pose proof (Qfloor_le t) as Hlo. pose proof (Qlt_floor t) as Hhi.
  rewrite inject_Z_plus in Hhi. change (inject_Z 1) with 1%Q in Hhi.
  destruct (Qltb (t - inject_Z (Qfloor t)) (1 # 2)) eqn:E1.
  { apply Qltb_lt in E1. lra. }
  assert (1 # 2 <= t - inject_Z (Qfloor t))%Q as H1.
  { apply Qnot_lt_le. intros H. apply Qltb_lt in H. congruence. }
  destruct (Qltb (1 # 2) (t - inject_Z (Qfloor t))) eqn:E2.
  { rewrite inject_Z_plus. change (inject_Z 1) with 1%Q. lra. }
  assert (t - inject_Z (Qfloor t) <= 1 # 2)%Q as H2.
  { apply Qnot_lt_le. intros H. apply Qltb_lt in H. congruence. }
  destruct (Z.even (Qfloor t)).
  - lra.
  - rewrite inject_Z_plus. change (inject_Z 1) with 1%Q. lra.
Qed.

Lemma pow2_pos (e : Z) : (0 < 2 ^ e)%Q.
Proof. by apply Qpower_0_lt. Qed.

Lemma pow2_le (n m : Z) : n ≤ m → (2 ^ n <= 2 ^ m)%Q.
Proof. intros H. by apply Qpower_le_compat_l. Qed.

Lemma pow2_Z (n : Z) : 0 ≤ n → (2 ^ n == inject_Z (2 ^ n))%Q.
Proof. intros Hn. by rewrite Zpower_Qpower. Qed.

Lemma float_exponent_le (a : Q) : (0 < a)%Q → (2 ^ float_exponent a <= a)%Q.
Proof.
  intros Ha. unfold float_exponent.
  destruct (Qle_bool _ a) eqn:E; [by apply Qle_bool_iff|]. clear E.
  destruct a as [n d]. cbn [Qnum Qden].
  assert (0 < n) as Hn by (unfold Qlt in Ha; simpl in Ha; lia).
  pose proof (Z.log2_spec n Hn) as [Hln _].
  pose proof (Z.log2_spec (Z.pos d) ltac:(lia)) as [_ Hld].
  pose proof (Z.log2_nonneg n) as Hn0.
  pose proof (Z.log2_nonneg (Z.pos d)) as Hd0.
  replace (Z.log2 n - Z.log2 (Z.pos d) - 1)
    with (Z.log2 n - Z.succ (Z.log2 (Z.pos d))) by lia.
  rewrite Qpower_minus by done.
  rewrite !pow2_Z by lia.
  rewrite (Qmake_Qdiv n d).
  assert (0 < inject_Z (2 ^ Z.succ (Z.log2 (Z.pos d))))%Q as Hpos1
    by (rewrite <- pow2_Z by lia; apply pow2_pos).
  assert (0 < inject_Z (Z.pos d))%Q as Hpos2
    by (change 0%Q with (inject_Z 0); rewrite <- Zlt_Qlt; lia).
  apply Qle_shift_div_r; [done|].
  unfold Qdiv. rewrite <- Qmult_assoc, (Qmult_comm (/ _)), Qmult_assoc.
  apply Qle_shift_div_l; [done|].
  rewrite <- !inject_Z_mult, <- Zle_Qle.
  apply Z.mul_le_mono_nonneg; lia.
Qed.

Lemma Qabs_of_pos (q : Q) : (0 < q)%Q → Qabs q = q.
Proof.
  destruct q as [n d]. unfold Qlt. cbn [Qnum Qden Qabs]. intros H.
  f_equal. apply Z.abs_eq. lia.
Qed.

Lemma half_ulp (e : Z) : (2 ^ (e - 52) * (1 # 2) == 2 ^ e * 2 ^ (-53))%Q.
Proof.
  rewrite <- (Qpower_plus 2 e (-53)) by done.
  change (1 # 2)%Q with (2 ^ (-1))%Q.
  rewrite <- (Qpower_plus 2 (e - 52) (-1)) by done.
  by replace (e - 52 + -1) with (e + -53) by lia.
Qed.

Lemma u_lt_1 : (2 ^ (-53) < 1)%Q.
Proof.
  change 1%Q with (2 ^ 0)%Q. by apply Qpower_lt_compat_l.
Qed.

(** A positive value in the normal range rounds to a finite float within
    a relative [2^-53] of it. *)
Lemma float_round_rel (q : Q) :
  (2 ^ (-1022) <= q)%Q → (q <= 2 ^ 1023)%Q →
  ∃ r, float_round q = Fin r ∧
       (q * (1 - 2 ^ (-53)) <= r)%Q ∧ (r <= q * (1 + 2 ^ (-53)))%Q.
Proof.
  intros Hlo Hhi.
  assert (0 < q)%Q as Hq by (eapply Qlt_le_trans; [apply pow2_pos | exact Hlo]).
  unfold float_round.
  destruct (Qeq_bool q 0) eqn:E0.
  { apply Qeq_bool_iff in E0. rewrite E0 in Hq. by apply Qlt_irrefl in Hq. }
  clear E0. rewrite (Qabs_of_pos q Hq).
  set (e := Z.max (float_exponent q) (-1022)).
  assert (2 ^ e <= q)%Q as He.
  { subst e. destruct (Z.max_spec (float_exponent q) (-1022)) as [[_ ->]|[_ ->]];
      [exact Hlo | by apply float_exponent_le]. }
  pose proof (pow2_pos (e - 52)) as Hulp.
  pose proof (half_ulp e) as Hhalf.
  pose proof (pow2_pos (-53)) as Hu0. pose proof u_lt_1 as Hu1.
  pose proof (py_round_error (q / 2 ^ (e - 52))) as [Hm1 Hm2].
  assert (q / 2 ^ (e - 52) * 2 ^ (e - 52) == q)%Q as Ht.
  { field. intros E. rewrite E in Hulp. by apply Qlt_irrefl in Hulp. }
  revert Hm1 Hm2 Ht.
  generalize (inject_Z (py_round (q / 2 ^ (e - 52)))). intros M.
  generalize (q / 2 ^ (e - 52))%Q. intros t Hm1 Hm2 Ht.
  assert (2 ^ e * 2 ^ (-53) <= q * 2 ^ (-53))%Q as Hhalf2
    by (apply Qmult_le_compat_r; [exact He | by apply Qlt_le_weak]).
  revert Hulp Hhalf Hhalf2 Hu0 Hu1 Ht.
  generalize (2 ^ (e - 52))%Q (2 ^ (-53))%Q (2 ^ e)%Q.
  intros ulp u pe Hulp Hhalf Hhalf2 Hu0 Hu1 Ht.
  assert (q * (1 - u) <= M * ulp)%Q as Hr1 by nra.
  assert (M * ulp <= q * (1 + u))%Q as Hr2 by nra.
  assert (Qle_bool (2 ^ 1024) (M * ulp) = false) as ->.
  { destruct (Qle_bool _ _) eqn:E; [|done]. apply Qle_bool_iff in E.
    exfalso.
    assert (2 ^ 1024 == 2 ^ 1023 * 2)%Q as E2.
    { change 2%Q with (2 ^ 1)%Q at 3. rewrite <- Qpower_plus by done. done. }
    rewrite E2 in E. pose proof (pow2_pos 1023) as HP.
    revert Hhi E HP. generalize (2 ^ 1023)%Q. intros P Hhi E HP. nra. }
  assert (Qle_bool 0 q = true) as -> by (by apply Qle_bool_iff, Qlt_le_weak).
  exists (M * ulp)%Q. done.
Qed.

Lemma py_truediv_rel (a b : Q) :
  (0 < b)%Q → (2 ^ (-1022) <= a / b)%Q → (a / b <= 2 ^ 1023)%Q →
  ∃ r, py_truediv a (Fin b) = Ok (Fin r) ∧
       (a / b * (1 - 2 ^ (-53)) <= r)%Q ∧ (r <= a / b * (1 + 2 ^ (-53)))%Q.
Proof.
  intros Hb Hlo Hhi. unfold py_truediv.
  destruct (Qeq_bool b 0) eqn:E.
  { apply Qeq_bool_iff in E. rewrite E in Hb. by apply Qlt_irrefl in Hb. }
  destruct (float_round_rel (a / b) Hlo Hhi) as (r & -> & Hr). by exists r.
Qed.

Lemma round_consts :
  ((1 + 2 ^ (-53)) * (1 + 2 ^ (-53)) * (1 + 2 ^ (-53))
     <= (1 + 2 ^ (-50)) * (1 - 2 ^ (-53)))%Q ∧
  ((1 - 2 ^ (-50)) * (1 + 2 ^ (-53))
     <= (1 - 2 ^ (-53)) * (1 - 2 ^ (-53)) * (1 - 2 ^ (-53)))%Q.
Proof. split; vm_compute; discriminate. Qed.

(** ** The RMS window *)

Lemma Qdiv_60 (q : Q) : (q / 60 == q * (1 # 60))%Q.
Proof. reflexivity. Qed.

(** The three divisions of lines 43-47 for a rate between 1 and [2^40]:
    none raises, and the last quotient is within a relative [2^-50] of
    [0.005 * srate / 60]. *)
Lemma window_chain (srate : Q) :
  (1 <= srate)%Q → (srate <= 2 ^ 40)%Q →
  ∃ mysrate dt mysegment,
    py_number_div srate 60 = Ok mysrate ∧
    py_truediv 1 (Fin mysrate) = Ok (Fin dt) ∧
    py_truediv (float_lit 0.005) (Fin dt) = Ok (Fin mysegment) ∧
    (0.005 * (srate / 60) * (1 - 2 ^ (-50)) <= mysegment)%Q ∧
    (mysegment <= 0.005 * (srate / 60) * (1 + 2 ^ (-50)))%Q.
Proof.
  intros H1 H2.
  pose proof (pow2_le (-1022) (-50) ltac:(lia)) as Htiny.
  pose proof (pow2_le 50 1023 ltac:(lia)) as Hhuge.
  assert (2 ^ (-50) == 1 # 1125899906842624)%Q as E50 by reflexivity.
  assert (2 ^ 50 == 1125899906842624)%Q as E50' by reflexivity.
  assert (2 ^ 40 == 1099511627776)%Q as E40 by reflexivity.
  assert (2 ^ (-53) == 1 # 9007199254740992)%Q as E53 by reflexivity.
  rewrite E50 in Htiny. rewrite E50' in Hhuge. rewrite E40 in H2.
  destruct round_consts as [Hc1 Hc2].
  assert (srate / 60 == srate * (1 # 60))%Q as Er0 by reflexivity.
  destruct (float_round_rel (srate / 60)) as (m & Em & Hm1 & Hm2);
    [rewrite Er0; lra | rewrite Er0; lra |].
  assert (py_number_div srate 60 = Ok m) as Ediv.
  { unfold py_number_div. change (Qeq_bool 60 0) with false. by rewrite Em. }
  rewrite E53 in Hm1, Hm2.
  assert ((1 # 61) <= m)%Q as Hmlo by (rewrite Er0 in Hm1; lra).
  assert (m <= 1099511627776)%Q as Hmhi by (rewrite Er0 in Hm2; lra).
  assert (0 < m)%Q as Hm0 by lra.
  assert (1 / m * m == 1)%Q as Eim by (field; lra).
  assert (0 < 1 / m)%Q as Him0.
  { unfold Qdiv. rewrite Qmult_1_l. by apply Qinv_lt_0_compat. }
  assert (1 / m <= 61)%Q as Himhi by nra.
  assert ((1 # 1099511627776) <= 1 / m)%Q as Himlo by nra.
  destruct (py_truediv_rel 1 m Hm0) as (d & Ed & Hd1 & Hd2); [lra | lra |].
  rewrite E53 in Hd1, Hd2.
  assert ((1 # 1099511627777) <= d)%Q as Hdlo by nra.
  assert (d <= 62)%Q as Hdhi by nra.
  assert (0 < d)%Q as Hd0 by lra.
  destruct (float_round_rel 0.005) as (c & Ec & Hc1' & Hc2');
    [lra | lra |].
  assert (float_lit 0.005 = c) as Elit by (unfold float_lit; by rewrite Ec).
  rewrite E53 in Hc1', Hc2'.
  assert ((4 # 1000) <= c)%Q as Hclo by lra.
  assert (c <= (6 # 1000))%Q as Hchi by lra.
  assert (c / d * d == c)%Q as Ev by (field; lra).
  assert (0 < c / d)%Q as Hv0.
  { unfold Qdiv. apply Qmult_lt_0_compat; [lra|]. by apply Qinv_lt_0_compat. }
  assert (c / d <= 6597069766662)%Q as Hvhi by nra.
  assert ((1 # 15500) <= c / d)%Q as Hvlo by nra.
  destruct (py_truediv_rel c d Hd0) as (g & Eg & Hg1 & Hg2); [lra | lra |].
  rewrite E53 in Hg1, Hg2. rewrite E53, E50 in Hc1, Hc2.
  exists m, d, g. rewrite Elit. repeat split; [done..| |].
  - rewrite E50, Er0. rewrite Er0 in Hm1, Hm2.
    revert Hm1 Hm2 Eim Him0 Hd1 Hd2 Hd0 Hc1' Hc2' Ev Hv0 Hg1 Hg2 Hm0.
    generalize (1 / m)%Q (c / d)%Q. intros im v. intros.
    assert (c * m <= v * (1 + (1 # 9007199254740992)))%Q by nra.
    nra.
  - rewrite E50, Er0. rewrite Er0 in Hm1, Hm2.
    revert Hm1 Hm2 Eim Him0 Hd1 Hd2 Hd0 Hc1' Hc2' Ev Hv0 Hg1 Hg2 Hm0.
    generalize (1 / m)%Q (c / d)%Q. intros im v. intros.
    assert (v * (1 - (1 # 9007199254740992)) <= c * m)%Q by nra.
    nra.
Qed.

Lemma window_chain_segment (mysrate dt mysegment : Q) :
  py_truediv 1 (Fin mysrate) = Ok (Fin dt) →
  py_truediv (float_lit 0.005) (Fin dt) = Ok (Fin mysegment) →
  (0 <= mysegment)%Q →
  rms_segment mysrate = Ok (Qfloor mysegment).
Proof.
  intros Hdt Hseg Hpos. unfold rms_segment.
  rewrite Hdt. cbn [mbind result_bind]. rewrite Hseg.
  cbn [mbind result_bind float_int]. unfold py_int.
  apply Qle_bool_iff in Hpos. by rewrite Hpos.
Qed.

(** C4 (as amended).  For an input rate between 1 and [2^40] samples per
    second the window handed to [lfp.rms] is [int(0.005/dt)] with
    [dt = 1/new_rate] and [new_rate = srate/60], every division rounded
    to binary64: the float quotient cut to the integer below it, not
    rounded to the nearest one.  The quotient lies within a relative
    [2^-50] of [0.005 * srate / 60]. *)
Theorem rms_segment_truncates (srate : Q) :
  (1 <= srate)%Q → (srate <= 2 ^ 40)%Q →
  ∃ mysrate dt mysegment,
    py_number_div srate 60 = Ok mysrate ∧
    py_truediv 1 (Fin mysrate) = Ok (Fin dt) ∧
    py_truediv (float_lit 0.005) (Fin dt) = Ok (Fin mysegment) ∧
    rms_window srate = Ok (Qfloor mysegment) ∧
    (0.005 * (srate / 60) * (1 - 2 ^ (-50)) <= mysegment)%Q ∧
    (mysegment <= 0.005 * (srate / 60) * (1 + 2 ^ (-50)))%Q.
Proof.
  intros H1 H2.
  destruct (window_chain srate H1 H2)
    as (mysrate & dt & mysegment & Hm & Hdt & Hseg & Hlo & Hhi).
  exists mysrate, dt, mysegment. repeat split; [done..| |done|done].
  unfold rms_window. rewrite Hm. cbn [mbind result_bind].
  apply (window_chain_segment mysrate dt mysegment Hdt Hseg).
  assert (2 ^ (-50) == 1 # 1125899906842624)%Q as E50 by reflexivity.
  rewrite E50, Qdiv_60 in Hlo. lra.
Qed.

Lemma rms_segment_truncates_witness :
  ∃ mysrate dt mysegment,
    py_number_div 45600 60 = Ok mysrate ∧
    py_truediv 1 (Fin mysrate) = Ok (Fin dt) ∧
    py_truediv (float_lit 0.005) (Fin dt) = Ok (Fin mysegment) ∧
    rms_window 45600 = Ok (Qfloor mysegment) ∧
    (0.005 * (45600 / 60) * (1 - 2 ^ (-50)) <= mysegment)%Q ∧
    (mysegment <= 0.005 * (45600 / 60) * (1 + 2 ^ (-50)))%Q.
Proof.
  apply (rms_segment_truncates 45600).
  - vm_compute. discriminate.
  - vm_compute. discriminate.
Defined.

(** C4 (as stated) fails: at 45600 samples per second the decimated rate
    is 760, the float quotient is just above 3.8, the code cuts it to 3
    and rounding [0.005 * 760] gives 4. *)
Lemma round_window_claim_fails :
  rms_window 45600 = Ok 3 ∧
  py_round (0.005 * (45600 / 60)) = 4 ∧
  ¬ round_window_claim 45600.
Proof.
  split; [vm_compute; reflexivity|].
  split; [vm_compute; reflexivity|].
  unfold round_window_claim. vm_compute. discriminate.
Qed.

(** Float rounding moves the window below the exact product: at 1500000
    samples per second [0.005 * 25000] is 125 and the code hands on 124. *)
Example rms_window_1500000 :
  rms_window 1500000 = Ok 124 ∧ rms_window 3000000 = Ok 249 ∧
  rms_window 30000 = Ok 2.
Proof. vm_compute. done. Qed.

(** A zero rate stops the constructor at [dt = 1/mysrate], if the two
    primitives before it returned. *)
Lemma rms_segment_zero_rate (mysrate : Q) :
  (mysrate == 0)%Q → rms_segment mysrate = Raise ZeroDivisionError.
Proof.
  intros H. unfold rms_segment, py_truediv.
  by rewrite (proj2 (Qeq_bool_iff mysrate 0) H).
Qed.

Lemma py_number_div_zero (srate b : Q) :
  (srate == 0)%Q → ¬ (b == 0)%Q → py_number_div srate b = Ok 0%Q.
Proof.
  intros Hs Hb. unfold py_number_div.
  destruct (Qeq_bool b 0) eqn:E; [by apply Qeq_bool_iff in E|].
  unfold float_round.
  assert (srate / b == 0)%Q as E0 by (rewrite Hs; field; exact Hb).
  by rewrite (proj2 (Qeq_bool_iff _ 0) E0).
Qed.

(** ** Calls through a [Burst] object *)

Section BurstFacts.

Variable std : list Q → Q.
Variable find_peaks : list Q → Q → list Z.
Variable band_pass : list Q → Q → Q → Q → result (list Q).
Variable decimate : list Q → Z → result (list Q).
Variable rms : list Q → Z → result (list Q).

(** Without data the constructor stores an empty list. *)
Lemma Burst_init_no_data srate :
  Burst_init std find_peaks band_pass decimate rms None srate = Ok [].
Proof. reflexivity. Qed.

(** The constructor has no handler: it yields a result only when every
    stage before [long_burst] returned, and then it is [long_burst]'s. *)
Lemma Burst_init_Ok_inv data srate res :
  Burst_init std find_peaks band_pass decimate rms (Some data) srate = Ok res →
  ∃ mysrate env,
    py_number_div srate 60 = Ok mysrate ∧
    rms_envelope_of band_pass decimate rms data srate env ∧
    long_burst std find_peaks env mysrate = Ok res.
Proof.
  unfold Burst_init, mbind, result_bind. intros H.
  destruct (py_number_div srate 2) as [nyquist|e]; [|discriminate].
  destruct (band_pass data 90 250 srate) as [bp|e] eqn:Hbp; [|discriminate].
  destruct (decimate bp 60) as [ds|e] eqn:Hds; [|discriminate].
  destruct (py_number_div srate 60) as [mysrate|e] eqn:Hrate; [|discriminate].
  destruct (rms_segment mysrate) as [seg|e] eqn:Hseg; [|discriminate].
  destruct (rms ds seg) as [env|e] eqn:Hrms; [|discriminate].
  exists mysrate, env. split; [done|]. split; [|exact H].
  by exists bp, ds, mysrate, seg.
Qed.

(** X8.  A zero rate never yields a result, whatever the primitives do: one
    of them raises, or the division [1/mysrate] does. *)
Lemma Burst_init_zero_rate data srate :
  (srate == 0)%Q →
  ∃ e, Burst_init std find_peaks band_pass decimate rms (Some data) srate
       = Raise e.
Proof.
  intros Hs. unfold Burst_init.
  rewrite (py_number_div_zero srate 2 Hs) by done.
  cbn [mbind result_bind].
  destruct (band_pass data 90 250 srate) as [bp|e]; [|by exists e].
  cbn [mbind result_bind].
  destruct (decimate bp 60) as [ds|e]; [|by exists e].
  cbn [mbind result_bind].
  rewrite (py_number_div_zero srate 60 Hs) by done.
  cbn [mbind result_bind].
  rewrite rms_segment_zero_rate; [by exists ZeroDivisionError | reflexivity].
Qed.

(** An envelope without a peak never yields a result either. *)
Lemma Burst_init_no_peak data srate :
  (∀ env, rms_envelope_of band_pass decimate rms data srate env →
          find_peaks env (std env * 5)%Q = []) →
  ∃ e, Burst_init std find_peaks band_pass decimate rms (Some data) srate
       = Raise e.
Proof.
  intros Hnone. unfold Burst_init.
  destruct (py_number_div srate 2) as [nyquist|e]; [|by exists e].
  cbn [mbind result_bind].
  destruct (band_pass data 90 250 srate) as [bp|e] eqn:Hbp; [|by exists e].
  cbn [mbind result_bind].
  destruct (decimate bp 60) as [ds|e] eqn:Hds; [|by exists e].
  cbn [mbind result_bind].
  destruct (py_number_div srate 60) as [mysrate|e] eqn:Hrate; [|by exists e].
  cbn [mbind result_bind].
  destruct (rms_segment mysrate) as [seg|e] eqn:Hseg; [|by exists e].
  cbn [mbind result_bind].
  destruct (rms ds seg) as [env|e] eqn:Hrms; [|by exists e].
  cbn [mbind result_bind].
  exists IndexError. apply long_burst_nil, Hnone.
  by exists bp, ds, mysrate, seg.
Qed.

Lemma fresh_not_allocated (h : gmap nat Burst) (self : nat) (b : Burst) :
  h !! self = Some b → fresh (dom h) ≠ self ∧ h !! fresh (dom h) = None.
Proof.
  intros Hself. pose proof (is_fresh (dom h)) as Hfresh. split.
  - intros E. apply Hfresh. rewrite E. apply elem_of_dom. eauto.
  - by apply not_elem_of_dom.
Qed.

Lemma Burst_call_frame (h : gmap nat Burst) self b data srate :
  h !! self = Some b →
  (Burst_call std find_peaks band_pass decimate rms self data srate h).2
    !! self = Some b.
Proof.
  intros Hself. unfold Burst_call, Burst_new.
  destruct (Burst_init std find_peaks band_pass decimate rms data srate)
    as [i|e]; [|done].
  cbn [snd]. rewrite lookup_insert_ne; [done|].
  by apply (fresh_not_allocated h self b).
Qed.

Lemma run_calls_frame self b calls : ∀ h : gmap nat Burst,
  h !! self = Some b →
  run_calls std find_peaks band_pass decimate rms self calls h !! self
    = Some b.
Proof.
  induction calls as [|c calls IH]; intros h Hself; [done|].
  unfold run_calls. cbn [foldl]. apply IH. by apply Burst_call_frame.
Qed.

(** C10.  A call through a [Burst] object allocates the new object at an
    address that was free, returns that address (or passes on what
    [__init__] raised, with the store as it was), and leaves the
    receiver as it was.  The module's [burst], built with no data, has
    an empty [idx], and after any sequence of calls through it it still
    has, with [len(burst) = 0]. *)
Theorem call_leaves_receiver (h : gmap nat Burst) self b data srate calls :
  h !! self = Some b →
  (Burst_call std find_peaks band_pass decimate rms self data srate h).2
    !! self = Some b ∧
  match Burst_init std find_peaks band_pass decimate rms data srate with
  | Ok i => ∃ fresh_obj : nat,
      fresh_obj ≠ self ∧ h !! fresh_obj = None ∧
      Burst_call std find_peaks band_pass decimate rms self data srate h
        = (Ok fresh_obj, <[fresh_obj := mkBurst i]> h)
  | Raise e =>
      Burst_call std find_peaks band_pass decimate rms self data srate h
        = (Raise e, h)
  end ∧
  ∃ (burst : nat) (h0 : gmap nat Burst),
    module_init std find_peaks band_pass decimate rms = (Ok burst, h0) ∧
    h0 !! burst = Some (mkBurst []) ∧
    run_calls std find_peaks band_pass decimate rms burst calls h0 !! burst
      = Some (mkBurst []) ∧
    Burst_len burst
      (run_calls std find_peaks band_pass decimate rms burst calls h0)
      = Some 0%nat.
Proof.
  intros Hself. split; [by apply Burst_call_frame|]. split.
  - unfold Burst_call, Burst_new.
    destruct (Burst_init std find_peaks band_pass decimate rms data srate)
      as [i|e]; [|done].
    exists (fresh (dom h)).
    destruct (fresh_not_allocated h self b Hself) as [Hne Hnone]. done.
  - exists (fresh (dom (∅ : gmap nat Burst))),
           (<[fresh (dom (∅ : gmap nat Burst)) := mkBurst []]> ∅).
    split; [done|].
    assert (H0 : (<[fresh (dom (∅ : gmap nat Burst)) := mkBurst []]> ∅
                   : gmap nat Burst)
                 !! fresh (dom (∅ : gmap nat Burst)) = Some (mkBurst []))
      by apply lookup_insert_eq.
    split; [exact H0|].
    pose proof (run_calls_frame _ _ calls _ H0) as Hkept.
    split; [exact Hkept|].
    unfold Burst_len. by rewrite Hkept.
Qed.

End BurstFacts.

Lemma call_leaves_receiver_witness :
  (Burst_call (λ _, 6%Q) (λ _ _, [10; 60]) pass_band pass_decimate pass_rms
     0 (Some env_two) 1200 {[0%nat := mkBurst []]}).2 !! 0%nat
    = Some (mkBurst []) ∧
  match Burst_init (λ _, 6%Q) (λ _ _, [10; 60]) pass_band pass_decimate
          pass_rms (Some env_two) 1200 with
  | Ok i => ∃ fresh_obj : nat,
      fresh_obj ≠ 0%nat ∧
      ({[0%nat := mkBurst []]} : gmap nat Burst) !! fresh_obj = None ∧
      Burst_call (λ _, 6%Q) (λ _ _, [10; 60]) pass_band pass_decimate pass_rms
        0 (Some env_two) 1200 {[0%nat := mkBurst []]}
        = (Ok fresh_obj, <[fresh_obj := mkBurst i]> {[0%nat := mkBurst []]})
  | Raise e =>
      Burst_call (λ _, 6%Q) (λ _ _, [10; 60]) pass_band pass_decimate pass_rms
        0 (Some env_two) 1200 {[0%nat := mkBurst []]}
        = (Raise e, {[0%nat := mkBurst []]})
  end ∧
  ∃ (burst : nat) (h0 : gmap nat Burst),
    module_init (λ _, 6%Q) (λ _ _, [10; 60]) pass_band pass_decimate pass_rms
      = (Ok burst, h0) ∧
    h0 !! burst = Some (mkBurst []) ∧
    run_calls (λ _, 6%Q) (λ _ _, [10; 60]) pass_band pass_decimate pass_rms
      burst [(Some env_two, 1200%Q); (None, 30000%Q)] h0 !! burst
      = Some (mkBurst []) ∧
    Burst_len burst
      (run_calls (λ _, 6%Q) (λ _ _, [10; 60]) pass_band pass_decimate pass_rms
         burst [(Some env_two, 1200%Q); (None, 30000%Q)] h0)
      = Some 0%nat.
Proof.
  apply (call_leaves_receiver (λ _, 6%Q) (λ _ _, [10; 60]) pass_band
           pass_decimate pass_rms {[0%nat := mkBurst []]} 0%nat (mkBurst [])
           (Some env_two) 1200 [(Some env_two, 1200%Q); (None, 30000%Q)]).
  reflexivity.
Defined.

(** The constructor on [env_two] at 1200 samples per second: the rate
    after decimation is 20 and two bursts are found. *)
Example Burst_init_env_two :
  Burst_init (λ _, 6%Q) (λ _ _, [10; 60]) pass_band pass_decimate pass_rms
    (Some env_two) 1200 = Ok [(9, 10); (59, 60)].
Proof. vm_compute. reflexivity. Qed.

(** * Further properties of [long_burst] *)

(** ** Provisional starts and ends, pairwise *)

Lemma fwd_window_le n x w :
  0 ≤ x < n → 0 ≤ w → slice_adjust n (x + w) - slice_adjust n x ≤ w.
Proof. intros. unfold slice_adjust. repeat case_match; lia. Qed.

Lemma refine_end_ge rmsdata lowthr srate x :
  0 ≤ x < Z.of_nat (length rmsdata) →
  0 ≤ py_int (0.250 * srate) →
  x ≤ refine_end rmsdata lowthr srate x.
Proof.
  intros Hx Hw.
  destruct (refine_end_cases rmsdata lowthr srate x) as [-> | (k & Hk & ->)];
    [lia|].
  apply Nat2Z.inj_lt in Hk. rewrite slice_rev_length in Hk.
  pose proof (fwd_window_le _ x _ Hx Hw). lia.
Qed.

Lemma ends_from_Forall (P : Z → Prop) srate rest : ∀ a,
  Forall P (a :: rest) → Forall P (ends_from srate a rest).
Proof.
  induction rest as [|b rest IH]; intros a H.
  - done.
  - apply Forall_cons in H as [Ha H]. cbn [ends_from].
    apply Forall_app. split; [|by apply IH].
    destruct (large_gap srate (b - a)); by repeat constructor.
Qed.

Lemma ends_from_ge srate rest : ∀ a,
  Sorted Z.lt (a :: rest) → Forall (λ e, a ≤ e) (ends_from srate a rest).
Proof.
  induction rest as [|b rest IH]; intros a Hs.
  - repeat constructor. lia.
  - apply Sorted_inv in Hs as [Hs Hhd]. apply HdRel_inv in Hhd.
    cbn [ends_from]. apply Forall_app. split.
    + destruct (large_gap srate (b - a)); repeat constructor. lia.
    + eapply Forall_impl; [by apply IH|]. simpl. lia.
Qed.

Lemma starts_le_ends srate rest : ∀ a a0,
  a0 ≤ a → Sorted Z.lt (a :: rest) →
  Forall2 Z.le (a0 :: starts_after srate a rest) (ends_from srate a rest).
Proof.
  induction rest as [|b rest IH]; intros a a0 Ha0 Hs.
  - by repeat constructor.
  - apply Sorted_inv in Hs as [Hs Hhd]. apply HdRel_inv in Hhd.
    cbn [starts_after ends_from].
    destruct (large_gap srate (b - a)); cbn [app].
    + constructor; [done|]. apply IH; [lia | done].
    + apply IH; [lia | done].
Qed.

Lemma ends_starts_gap srate rest : ∀ a (i : nat) pe ps,
  Sorted Z.lt (a :: rest) →
  ends_from srate a rest !! i = Some pe →
  starts_after srate a rest !! i = Some ps →
  gap_rel srate pe ps.
Proof.
  induction rest as [|b rest IH]; intros a i pe ps Hs He Hps; [done|].
  apply Sorted_inv in Hs as [Hs Hhd]. apply HdRel_inv in Hhd.
  cbn [starts_after ends_from] in He, Hps.
  destruct (large_gap srate (b - a)) eqn:Hg; cbn [app] in He, Hps.
  - destruct i as [|i].
    + injection He as <-. injection Hps as <-.
      split; [done | by apply large_gap_lt].
    + by apply (IH b i).
  - by apply (IH b i).
Qed.

Lemma peak_in_group srate rest : ∀ a a0 q,
  a0 ≤ a → Sorted Z.lt (a :: rest) → q ∈ a :: rest →
  ∃ (i : nat) ps pe,
    (a0 :: starts_after srate a rest) !! i = Some ps ∧
    ends_from srate a rest !! i = Some pe ∧
    (ps ≤ q ≤ pe ∨ (i = 0%nat ∧ a ≤ q ≤ pe)).
Proof.
  induction rest as [|b rest IH]; intros a a0 q Ha0 Hs Hq.
  - apply list_elem_of_singleton in Hq as ->.
    exists 0%nat, a0, a. repeat split; [done..|]. right. lia.
  - apply Sorted_inv in Hs as [Hs Hhd]. apply HdRel_inv in Hhd.
    cbn [starts_after ends_from].
    apply elem_of_cons in Hq as [-> | Hq].
    + destruct (large_gap srate (b - a)); cbn [app].
      * exists 0%nat, a0, a. repeat split; [done..|]. right. lia.
      * pose proof (ends_from_ge srate rest b Hs) as Hge.
        destruct (ends_from srate b rest) as [|pe es] eqn:E.
        { apply (f_equal length) in E. by rewrite ends_from_length in E. }
        apply Forall_cons in Hge as [Hpe _].
        exists 0%nat, a0, pe. repeat split; [done..|]. right. lia.
    + destruct (large_gap srate (b - a)); cbn [app].
      * destruct (IH b b q ltac:(lia) Hs Hq) as (i & ps & pe & Hps & Hpe & Hin).
        exists (S i), ps, pe. repeat split; [done..|]. left.
        destruct Hin as [? | [-> ?]]; [done|].
        injection Hps as <-. lia.
      * destruct (IH b a0 q ltac:(lia) Hs Hq) as (i & ps & pe & Hps & Hpe & Hin).
        exists i, ps, pe. repeat split; [done..|].
        destruct Hin as [? | [-> ?]]; [by left|]. right. split; [done|]. lia.
Qed.

Lemma windows_below_gap srate (d : Z) :
  (0 <= srate)%Q → (srate < inject_Z d)%Q →
  py_int (0.250 * srate) + Z.max 0 (py_int (0.100 * srate) - 1) < d.
Proof.
  intros Hpos Hlt.
  assert (inject_Z (py_int (0.250 * srate)) <= 0.250 * srate)%Q as H250
    by (apply py_int_le; lra).
  assert (inject_Z (py_int (0.100 * srate)) <= 0.100 * srate)%Q as H100
    by (apply py_int_le; lra).
  assert (0 ≤ py_int (0.100 * srate)) as Hw by (apply py_int_nonneg; lra).
  assert (inject_Z (py_int (0.250 * srate) + py_int (0.100 * srate))
          < inject_Z d)%Q as Hsum by (rewrite inject_Z_plus; lra).
  rewrite <- Zlt_Qlt in Hsum. lia.
Qed.

Lemma count_large_gaps_le srate (p : list Z) :
  (count_large_gaps srate p ≤ length p - 1)%nat.
Proof.
  induction p as [|a t IH]; [done|].
  destruct t as [|b t]; [done|].
  rewrite count_large_gaps_cons2. cbn [length] in *.
  destruct (large_gap srate (b - a)); lia.
Qed.

Lemma long_burst_length std find_peaks rmsdata srate res :
  long_burst std find_peaks rmsdata srate = Ok res →
  length res
  = S (count_large_gaps srate (find_peaks rmsdata (std rmsdata * 5)%Q)).
Proof.
  intros Hres.
  destruct (find_peaks rmsdata (std rmsdata * 5)%Q) as [|a rest] eqn:Hp.
  { rewrite (long_burst_nil _ _ _ _ Hp) in Hres. discriminate. }
  pose proof (long_burst_Ok_peaks _ _ _ _ _ _ _ Hp Hres) as ->.
  rewrite length_zip_with, !length_fmap. cbn [length].
  rewrite starts_after_length, ends_from_length. lia.
Qed.

(** ** Shape of the result *)

(** X1.  A returned list is never empty and never longer than the peak
    array: with data, a [Burst] either fails to be built or reports at
    least one burst. *)
Theorem result_never_empty std find_peaks rmsdata srate res :
  long_burst std find_peaks rmsdata srate = Ok res →
  (1 ≤ length res ≤ length (find_peaks rmsdata (std rmsdata * 5)%Q))%nat.
Proof.
  intros Hres. rewrite (long_burst_length _ _ _ _ _ Hres).
  pose proof (count_large_gaps_le srate
                (find_peaks rmsdata (std rmsdata * 5)%Q)) as Hle.
  destruct (find_peaks rmsdata (std rmsdata * 5)%Q) as [|a rest] eqn:Hp.
  { rewrite (long_burst_nil _ _ _ _ Hp) in Hres. discriminate. }
  cbn [length] in *. lia.
Qed.

Lemma result_never_empty_witness :
  (1 ≤ length [(9, 10); (59, 60)] ≤ length [10; 60])%nat.
Proof.
  apply (result_never_empty (λ _, 6%Q) (λ _ _, [10; 60]) env_two 20
           [(9, 10); (59, 60)]).
  vm_compute. reflexivity.
Defined.

(** X2.  On a peak set and for a rate that is not negative, an interval
    starts at or before the first peak of its group and ends at or after
    the last one; in particular its start is not after its end. *)
Theorem interval_spans_group std find_peaks rmsdata srate res :
  is_peak_set rmsdata (find_peaks rmsdata (std rmsdata * 5)%Q) →
  (0 <= srate)%Q →
  long_burst std find_peaks rmsdata srate = Ok res →
  ∃ pstart pend,
    prov_starts srate (find_peaks rmsdata (std rmsdata * 5)%Q) = Ok pstart ∧
    prov_ends srate (find_peaks rmsdata (std rmsdata * 5)%Q) = Ok pend ∧
    ∀ (i : nat) (s e : Z), res !! i = Some (s, e) →
      ∃ ps pe, pstart !! i = Some ps ∧ pend !! i = Some pe ∧
               s ≤ ps ∧ ps ≤ pe ∧ pe ≤ e.
Proof.
  intros [Hsorted Hrange] Hrate Hres.
  destruct (find_peaks rmsdata (std rmsdata * 5)%Q) as [|a rest] eqn:Hp.
  { rewrite (long_burst_nil _ _ _ _ Hp) in Hres. discriminate. }
  pose proof (long_burst_Ok_peaks _ _ _ _ _ _ _ Hp Hres) as ->.
  exists (a :: starts_after srate a rest), (ends_from srate a rest).
  rewrite prov_starts_cons, prov_ends_cons. repeat split.
  intros i s e Hi.
  apply lookup_zip_with_Some in Hi as (s' & e' & [= -> ->] & Hs' & He').
  apply list_lookup_fmap_Some in Hs' as (ps & -> & Hps).
  apply list_lookup_fmap_Some in He' as (pe & -> & Hpe).
  exists ps, pe. repeat split; [done..| | |].
  - apply refine_start_le.
  - exact (Forall2_lookup_lr _ _ _ _ _ _
             (starts_le_ends srate rest a a ltac:(lia) Hsorted) Hps Hpe).
  - apply refine_end_ge; [|apply py_int_nonneg; lra].
    exact (proj1 (Forall_lookup _ _)
             (ends_from_Forall _ srate rest a Hrange) i pe Hpe).
Qed.

(** X3.  On a peak set and for a rate that is not negative, successive
    intervals do not overlap: each interval ends strictly before the next
    one starts. *)
Theorem intervals_disjoint std find_peaks rmsdata srate res :
  is_peak_set rmsdata (find_peaks rmsdata (std rmsdata * 5)%Q) →
  (0 <= srate)%Q →
  long_burst std find_peaks rmsdata srate = Ok res →
  ∀ (i : nat) (s1 e1 s2 e2 : Z),
    res !! i = Some (s1, e1) → res !! S i = Some (s2, e2) → e1 < s2.
Proof.
  intros [Hsorted Hrange] Hrate Hres i s1 e1 s2 e2 H1 H2.
  destruct (find_peaks rmsdata (std rmsdata * 5)%Q) as [|a rest] eqn:Hp.
  { rewrite (long_burst_nil _ _ _ _ Hp) in Hres. discriminate. }
  pose proof (long_burst_Ok_peaks _ _ _ _ _ _ _ Hp Hres) as ->.
  apply lookup_zip_with_Some in H1 as (x1 & y1 & [= -> ->] & _ & Hy1).
  apply lookup_zip_with_Some in H2 as (x2 & y2 & [= -> ->] & Hx2 & _).
  apply list_lookup_fmap_Some in Hy1 as (pe & -> & Hpe).
  apply list_lookup_fmap_Some in Hx2 as (ps & -> & Hps).
  cbn [lookup list_lookup] in Hps.
  destruct (ends_starts_gap srate rest a i pe ps Hsorted Hpe Hps) as [Hlt Hgap].
  assert (0 ≤ ps) as Hps0.
  { apply Forall_cons in Hrange as [_ Hrest].
    pose proof (proj1 (Forall_lookup _ _)
                  (starts_after_Forall _ srate rest a Hrest) i ps Hps).
    simpl in *. lia. }
  pose proof (refine_end_le_window rmsdata (std rmsdata) srate pe
                ltac:(apply py_int_nonneg; lra)).
  pose proof (refine_start_gt_window rmsdata (std rmsdata) srate ps Hps0).
  pose proof (windows_below_gap srate (ps - pe) Hrate Hgap).
  lia.
Qed.

(** X4.  On a peak set and for a rate that is not negative, every peak
    found lies inside one of the returned intervals. *)
Theorem every_peak_covered std find_peaks rmsdata srate res (q : Z) :
  is_peak_set rmsdata (find_peaks rmsdata (std rmsdata * 5)%Q) →
  (0 <= srate)%Q →
  long_burst std find_peaks rmsdata srate = Ok res →
  q ∈ find_peaks rmsdata (std rmsdata * 5)%Q →
  ∃ (i : nat) (s e : Z), res !! i = Some (s, e) ∧ s ≤ q ≤ e.
Proof.
  intros [Hsorted Hrange] Hrate Hres Hq.
  destruct (find_peaks rmsdata (std rmsdata * 5)%Q) as [|a rest] eqn:Hp.
  { rewrite (long_burst_nil _ _ _ _ Hp) in Hres. discriminate. }
  pose proof (long_burst_Ok_peaks _ _ _ _ _ _ _ Hp Hres) as ->.
  destruct (peak_in_group srate rest a a q ltac:(lia) Hsorted Hq)
    as (i & ps & pe & Hps & Hpe & Hin).
  exists i, (refine_start rmsdata (std rmsdata) srate ps),
         (refine_end rmsdata (std rmsdata) srate pe).
  split.
  - apply lookup_zip_with_Some. eexists _, _. split; [done|].
    by rewrite !list_lookup_fmap, Hps, Hpe.
  - pose proof (refine_start_le rmsdata (std rmsdata) srate ps).
    assert (pe ≤ refine_end rmsdata (std rmsdata) srate pe).
    { apply refine_end_ge; [|apply py_int_nonneg; lra].
      exact (proj1 (Forall_lookup _ _)
               (ends_from_Forall _ srate rest a Hrange) i pe Hpe). }
    destruct Hin as [? | [-> ?]]; [lia|].
    injection Hps as <-. lia.
Qed.

Lemma interval_spans_group_witness :
  ∃ pstart pend,
    prov_starts 20 [10; 60] = Ok pstart ∧
    prov_ends 20 [10; 60] = Ok pend ∧
    ∀ (i : nat) (s e : Z), [(9, 10); (59, 60)] !! i = Some (s, e) →
      ∃ ps pe, pstart !! i = Some ps ∧ pend !! i = Some pe ∧
               s ≤ ps ∧ ps ≤ pe ∧ pe ≤ e.
Proof.
  apply (interval_spans_group (λ _, 6%Q) (λ _ _, [10; 60]) env_two 20).
  - split.
    + repeat constructor.
    + repeat constructor; simpl; lia.
  - unfold Qle. simpl. lia.
  - vm_compute. reflexivity.
Defined.

Lemma intervals_disjoint_witness : 10 < 59.
Proof.
  apply (intervals_disjoint (λ _, 6%Q) (λ _ _, [10; 60]) env_two 20
           [(9, 10); (59, 60)]) with (i := 0%nat) (s1 := 9) (e2 := 60).
  - split.
    + repeat constructor.
    + repeat constructor; simpl; lia.
  - unfold Qle. simpl. lia.
  - vm_compute. reflexivity.
  - reflexivity.
  - reflexivity.
Defined.

Lemma every_peak_covered_witness :
  ∃ (i : nat) (s e : Z),
    [(9, 10); (59, 60)] !! i = Some (s, e) ∧ s ≤ 60 ≤ e.
Proof.
  apply (every_peak_covered (λ _, 6%Q) (λ _ _, [10; 60]) env_two 20).
  - split.
    + repeat constructor.
    + repeat constructor; simpl; lia.
  - unfold Qle. simpl. lia.
  - vm_compute. reflexivity.
  - apply list_elem_of_In. simpl. tauto.
Defined.

Lemma large_gap_false srate d :
  (inject_Z d <= srate)%Q → large_gap srate d = false.
Proof.
  intros Hle. destruct (large_gap srate d) eqn:Hg; [|done].
  apply large_gap_lt in Hg. exfalso. by apply (Qlt_not_le srate (inject_Z d)).
Qed.




(** X6.  For a rate that is not negative, when every peak lies at least
    250 ms of samples before the end of the envelope, every start and
    every end returned is an index into the envelope. *)
Theorem indices_valid_away_from_end std find_peaks rmsdata srate res :
  (0 <= srate)%Q →
  Forall (λ x, 0 ≤ x ∧ x + py_int (0.250 * srate) < Z.of_nat (length rmsdata))
         (find_peaks rmsdata (std rmsdata * 5)%Q) →
  long_burst std find_peaks rmsdata srate = Ok res →
  ∀ (i : nat) (s e : Z), res !! i = Some (s, e) →
    0 ≤ s < Z.of_nat (length rmsdata) ∧ 0 ≤ e < Z.of_nat (length rmsdata).
Proof.
  intros Hrate Hrange Hres i s e Hi.
  assert (0 ≤ py_int (0.250 * srate)) as Hw by (apply py_int_nonneg; lra).
  destruct (find_peaks rmsdata (std rmsdata * 5)%Q) as [|a rest] eqn:Hp.
  { rewrite (long_burst_nil _ _ _ _ Hp) in Hres. discriminate. }
  pose proof (long_burst_Ok_peaks _ _ _ _ _ _ _ Hp Hres) as ->.
  apply lookup_zip_with_Some in Hi as (s' & e' & [= -> ->] & Hs' & He').
  apply list_lookup_fmap_Some in Hs' as (ps & -> & Hps).
  apply list_lookup_fmap_Some in He' as (pe & -> & Hpe).
  assert (Hst : Forall (λ x, 0 ≤ x ∧ x + py_int (0.250 * srate)
                                      < Z.of_nat (length rmsdata))
                  (a :: starts_after srate a rest)).
  { pose proof Hrange as Hr. apply Forall_cons in Hr as [Ha Hrest].
    constructor; [done|]. by apply starts_after_Forall. }
  pose proof (proj1 (Forall_lookup _ _) Hst i ps Hps) as Hps0.
  cbv beta in Hps0.
  pose proof (proj1 (Forall_lookup _ _)
                (ends_from_Forall _ srate rest a Hrange) i pe Hpe) as Hpe0.
  cbv beta in Hpe0.
  pose proof (refine_start_le rmsdata (std rmsdata) srate ps).
  pose proof (refine_start_nonneg rmsdata (std rmsdata) srate ps ltac:(lia)).
  pose proof (refine_end_le_window rmsdata (std rmsdata) srate pe Hw).
  pose proof (refine_end_ge rmsdata (std rmsdata) srate pe ltac:(lia) Hw).
  lia.
Qed.

Lemma indices_valid_away_from_end_witness :
  0 ≤ 59 < Z.of_nat (length env_two) ∧ 0 ≤ 60 < Z.of_nat (length env_two).
Proof.
  apply (indices_valid_away_from_end (λ _, 6%Q) (λ _ _, [10; 60]) env_two 20
           [(9, 10); (59, 60)]) with (i := 1%nat).
  - unfold Qle. simpl. lia.
  - repeat constructor; vm_compute; congruence.
  - vm_compute. reflexivity.
  - reflexivity.
Defined.

(** ** Peaks, gaps and intervals *)

Lemma count_large_gaps_take srate a b t (n : nat) :
  count_large_gaps srate (take (S (S n)) (a :: b :: t))
  = ((if large_gap srate (b - a) then 1 else 0)
     + count_large_gaps srate (take (S n) (b :: t)))%nat.
Proof. rewrite !firstn_cons. apply count_large_gaps_cons2. Qed.

(** Going from one peak to the next, the number of large gaps seen so far
    grows by one exactly when the gap between the two is large. *)
Lemma count_take_succ srate (p : list Z) : ∀ (j : nat) x y,
  p !! j = Some x → p !! S j = Some y →
  count_large_gaps srate (take (S (S j)) p)
  = (count_large_gaps srate (take (S j) p)
     + (if large_gap srate (y - x) then 1 else 0))%nat.
Proof.
  induction p as [|a t IH]; intros j x y Hx Hy; [done|].
  destruct t as [|b t]; [done|].
  destruct j as [|j].
  - injection Hx as <-. injection Hy as <-.
    rewrite count_large_gaps_take.
    destruct (large_gap srate (b - a)); reflexivity.
  - rewrite !count_large_gaps_take.
    rewrite (IH j x y Hx Hy). lia.
Qed.

(** The peak at position [j] belongs to the group whose number is the
    number of large gaps before it. *)
Lemma peak_group_index srate rest : ∀ a a0 (j : nat) x,
  a0 ≤ a → Sorted Z.lt (a :: rest) → (a :: rest) !! j = Some x →
  ∃ ps pe,
    (a0 :: starts_after srate a rest)
      !! count_large_gaps srate (take (S j) (a :: rest)) = Some ps ∧
    ends_from srate a rest
      !! count_large_gaps srate (take (S j) (a :: rest)) = Some pe ∧
    ps ≤ x ≤ pe.
Proof.
  induction rest as [|b rest IH]; intros a a0 j x Ha0 Hs Hx.
  - destruct j as [|j]; [|done]. injection Hx as <-.
    exists a0, a. repeat split; (done || lia).
  - apply Sorted_inv in Hs as [Hs Hhd]. apply HdRel_inv in Hhd.
    destruct j as [|j].
    + injection Hx as <-.
      change (count_large_gaps srate (take 1 (a :: b :: rest))) with 0%nat.
      cbn [starts_after ends_from].
      destruct (large_gap srate (b - a)); cbn [app].
      * exists a0, a. repeat split; (done || lia).
      * pose proof (ends_from_ge srate rest b Hs) as Hge.
        destruct (ends_from srate b rest) as [|pe es] eqn:E.
        { apply (f_equal length) in E. by rewrite ends_from_length in E. }
        apply Forall_cons in Hge as [Hpe _].
        exists a0, pe. repeat split; (done || lia).
    + rewrite count_large_gaps_take. cbn [starts_after ends_from].
      destruct (large_gap srate (b - a)); cbn [app].
      * destruct (IH b b j x ltac:(lia) Hs Hx) as (ps & pe & Hps & Hpe & Hin).
        exists ps, pe. done.
      * destruct (IH b a0 j x ltac:(lia) Hs Hx) as (ps & pe & Hps & Hpe & Hin).
        exists ps, pe. done.
Qed.

Lemma zip_refine_lookup rmsdata lowthr srate (pstart pend : list Z)
    (i : nat) ps pe :
  pstart !! i = Some ps → pend !! i = Some pe →
  zip (refine_start rmsdata lowthr srate <$> pstart)
      (refine_end rmsdata lowthr srate <$> pend) !! i
  = Some (refine_start rmsdata lowthr srate ps,
          refine_end rmsdata lowthr srate pe).
Proof.
  intros Hps Hpe. apply lookup_zip_with_Some. eexists _, _. split; [done|].
  by rewrite !list_lookup_fmap, Hps, Hpe.
Qed.

(** C8.  On a non-empty peak set and for a rate from 0 to [2^62] (so that
    the two windows fit the 64-bit integers of the peak array),
    [long_burst] returns; the number of intervals is the number of large
    gaps plus one; the first interval contains the first peak; and for
    two consecutive peaks [x], [y], with [c] the number of large gaps
    before [x]: interval [c] contains [x]; when the gap [y - x] is at
    most [srate], one second of samples, the same interval contains [y];
    when the gap strictly exceeds [srate], interval [c] ends before
    interval [c + 1] starts and that next interval contains [y]. *)
Theorem one_interval_per_group std find_peaks rmsdata srate a rest :
  find_peaks rmsdata (std rmsdata * 5)%Q = a :: rest →
  is_peak_set rmsdata (a :: rest) →
  (0 <= srate)%Q →
  (srate <= 2 ^ 62)%Q →
  ∃ res,
    long_burst std find_peaks rmsdata srate = Ok res ∧
    length res = S (count_large_gaps srate (a :: rest)) ∧
    (∃ s e, res !! 0%nat = Some (s, e) ∧ s ≤ a ≤ e) ∧
    ∀ (j : nat) (x y : Z),
      (a :: rest) !! j = Some x → (a :: rest) !! S j = Some y →
      ∃ s e,
        res !! count_large_gaps srate (take (S j) (a :: rest)) = Some (s, e) ∧
        s ≤ x ≤ e ∧
        ((inject_Z (y - x) <= srate)%Q → y ≤ e) ∧
        ((srate < inject_Z (y - x))%Q →
         ∃ s' e',
           res !! S (count_large_gaps srate (take (S j) (a :: rest)))
             = Some (s', e') ∧
           e < s' ∧ s' ≤ y ≤ e').
Proof.
  intros Hp [Hsorted Hrange] Hrate _.
  eexists. split; [by apply long_burst_peaks|].
  assert (0 ≤ py_int (0.250 * srate)) as Hw by (apply py_int_nonneg; lra).
  assert (∀ (i : nat) pe, ends_from srate a rest !! i = Some pe →
            pe ≤ refine_end rmsdata (std rmsdata) srate pe) as Hend.
  { intros i pe Hpe. apply refine_end_ge; [|done].
    exact (proj1 (Forall_lookup _ _)
             (ends_from_Forall _ srate rest a Hrange) i pe Hpe). }
  split; [|split].
  - rewrite length_zip_with, !length_fmap. cbn [length].
    rewrite starts_after_length, ends_from_length. lia.
  - destruct (peak_group_index srate rest a a 0%nat a ltac:(lia) Hsorted
                eq_refl) as (ps & pe & Hps & Hpe & Hin).
    change (count_large_gaps srate (take 1 (a :: rest))) with 0%nat in Hps, Hpe.
    eexists _, _. split; [by apply zip_refine_lookup|].
    pose proof (refine_start_le rmsdata (std rmsdata) srate ps).
    pose proof (Hend _ _ Hpe). lia.
  - intros j x y Hx Hy.
    destruct (peak_group_index srate rest a a j x ltac:(lia) Hsorted Hx)
      as (ps & pe & Hps & Hpe & Hin).
    destruct (peak_group_index srate rest a a (S j) y ltac:(lia) Hsorted Hy)
      as (ps' & pe' & Hps' & Hpe' & Hin').
    rewrite (count_take_succ srate _ j x y Hx Hy) in Hps', Hpe'.
    set (c := count_large_gaps srate (take (S j) (a :: rest))) in *.
    pose proof (refine_start_le rmsdata (std rmsdata) srate ps) as Hs.
    pose proof (Hend _ _ Hpe) as He.
    eexists _, _. split; [by apply zip_refine_lookup|].
    split; [lia|]. split.
    + intros Hle. rewrite (large_gap_false _ _ Hle), Nat.add_0_r in Hpe'.
      assert (pe' = pe) as -> by congruence. lia.
    + intros Hgt. apply large_gap_lt in Hgt as Hg.
      rewrite Hg, Nat.add_1_r in Hps', Hpe'.
      eexists _, _. split; [by apply zip_refine_lookup|].
      pose proof (refine_start_le rmsdata (std rmsdata) srate ps') as Hs'.
      pose proof (Hend _ _ Hpe') as He'.
      split; [|lia].
      cbn [lookup list_lookup] in Hps'.
      destruct (ends_starts_gap srate rest a c pe ps' Hsorted Hpe Hps')
        as [Hlt Hgap].
      assert (0 ≤ ps') as Hps0.
      { apply Forall_cons in Hrange as [_ Hrest].
        pose proof (proj1 (Forall_lookup _ _)
                      (starts_after_Forall _ srate rest a Hrest) c ps' Hps').
        simpl in *. lia. }
      pose proof (refine_end_le_window rmsdata (std rmsdata) srate pe Hw).
      pose proof (refine_start_gt_window rmsdata (std rmsdata) srate ps' Hps0).
      pose proof (windows_below_gap srate (ps' - pe) Hrate Hgap).
      lia.
Qed.

Lemma one_interval_per_group_witness :
  ∃ res,
    long_burst (λ _, 6%Q) (λ _ _, [10; 60]) env_two 20 = Ok res ∧
    length res = S (count_large_gaps 20 [10; 60]) ∧
    (∃ s e, res !! 0%nat = Some (s, e) ∧ s ≤ 10 ≤ e) ∧
    ∀ (j : nat) (x y : Z),
      [10; 60] !! j = Some x → [10; 60] !! S j = Some y →
      ∃ s e,
        res !! count_large_gaps 20 (take (S j) [10; 60]) = Some (s, e) ∧
        s ≤ x ≤ e ∧
        ((inject_Z (y - x) <= 20)%Q → y ≤ e) ∧
        ((20 < inject_Z (y - x))%Q →
         ∃ s' e',
           res !! S (count_large_gaps 20 (take (S j) [10; 60]))
             = Some (s', e') ∧
           e < s' ∧ s' ≤ y ≤ e').
Proof.
  apply (one_interval_per_group (λ _, 6%Q) (λ _ _, [10; 60]) env_two 20
           10 [60]).
  - reflexivity.
  - split.
    + repeat constructor.
    + repeat constructor; simpl; lia.
  - vm_compute. discriminate.
  - vm_compute. discriminate.
Defined.

(** ** The backward scan *)

Lemma Qltb_ge (a b : Q) : Qltb a b = false ↔ (b <= a)%Q.
Proof.
  unfold Qltb. rewrite negb_false_iff. apply Qle_bool_iff.
Qed.

Lemma back_slice_lookup (rmsdata : list Q) x w (k : nat) :
  0 ≤ w → w ≤ x → x < Z.of_nat (length rmsdata) → Z.of_nat k < w →
  slice_rev rmsdata x (x - w) !! k = rmsdata !! Z.to_nat (x - Z.of_nat k) ∧
  is_Some (rmsdata !! Z.to_nat (x - Z.of_nat k)).
Proof.
  intros Hw Hx Hn Hk.
  assert (slice_adjust (Z.of_nat (length rmsdata)) x = x) as Hhi
    by (unfold slice_adjust; repeat case_match; lia).
  assert (slice_adjust (Z.of_nat (length rmsdata)) (x - w) = x - w) as Hlo
    by (unfold slice_adjust; repeat case_match; lia).
  destruct (slice_rev_spec rmsdata x (x - w)) as [_ Hnth].
  rewrite Hhi, Hlo in Hnth. apply Hnth. lia.
Qed.

(** The start loop of [long_burst] is [start_scan] at the window the model
    computes. *)
Lemma start_step_scan rmsdata lowthr srate (pstart : list Z) (i : nat) :
  start_step rmsdata lowthr srate pstart i
  = start_scan rmsdata lowthr (py_int (0.100 * srate)) pstart i.
Proof. reflexivity. Qed.

(** X7.  For a provisional start [x] and a window of [w] samples (the
    value of [int(0.100*srate)]) that lies inside the envelope, the scan
    tests [x], [x - 1], ..., [x - w + 1] in that order (the peak itself
    first); when the first sample below [lowthr] is the one [k] places
    before [x], the start becomes [x - k], the index of that sample; when
    no sample of the window is below [lowthr], the start is left as it
    was. *)
Theorem start_scan_first_below (rmsdata : list Q) lowthr (w : Z)
    (pstart : list Z) (i : nat) (x : Z) :
  pstart !! i = Some x →
  0 ≤ w →
  w ≤ x →
  x < Z.of_nat (length rmsdata) →
  (∀ (k : nat) (v : Q),
     Z.of_nat k < w →
     rmsdata !! Z.to_nat (x - Z.of_nat k) = Some v →
     (v < lowthr)%Q →
     (∀ (j : nat) (u : Q), (j < k)%nat →
        rmsdata !! Z.to_nat (x - Z.of_nat j) = Some u → (lowthr <= u)%Q) →
     start_scan rmsdata lowthr w pstart i
       = <[i := x - Z.of_nat k]> pstart) ∧
  ((∀ (j : nat) (u : Q), Z.of_nat j < w →
      rmsdata !! Z.to_nat (x - Z.of_nat j) = Some u → (lowthr <= u)%Q) →
   start_scan rmsdata lowthr w pstart i = pstart).
Proof.
  intros Hi Hw Hx Hn. split.
  - intros k v Hk Hv Hbelow Hbefore.
    unfold start_scan. rewrite Hi. cbv zeta. unfold np_where.
    destruct (np_where_from_first 0
                ((λ v, Qltb v lowthr) <$> slice_rev rmsdata x (x - w)) k)
      as [vs ->].
    + destruct (back_slice_lookup rmsdata x w k Hw Hx Hn Hk) as [Hnth _].
      rewrite list_lookup_fmap, Hnth, Hv. simpl. f_equal.
      by apply Qltb_lt.
    + intros j Hj.
      destruct (back_slice_lookup rmsdata x w j Hw Hx Hn ltac:(lia))
        as [Hnth [u Hu]].
      rewrite list_lookup_fmap, Hnth, Hu. simpl. f_equal.
      apply Qltb_ge. by apply (Hbefore j u).
    + simpl. done.
  - intros Hnone.
    unfold start_scan. rewrite Hi. cbv zeta. unfold np_where.
    pose proof (np_where_from_head 0
                  ((λ v, Qltb v lowthr) <$> slice_rev rmsdata x (x - w))) as H.
    destruct (np_where_from 0 _) as [|v0 vs]; [done|].
    destruct H as (k & _ & Hk & _). exfalso.
    assert (Z.of_nat k < w) as Hkw.
    { apply lookup_lt_Some in Hk. rewrite length_fmap in Hk.
      apply Nat2Z.inj_lt in Hk. rewrite slice_rev_length in Hk.
      pose proof (back_window_le (Z.of_nat (length rmsdata)) x w
                    ltac:(lia) Hw). lia. }
    destruct (back_slice_lookup rmsdata x w k Hw Hx Hn Hkw) as [Hnth [u Hu]].
    rewrite list_lookup_fmap, Hnth, Hu in Hk. simpl in Hk.
    injection Hk as Hk. apply Qltb_lt in Hk.
    by apply (Qlt_not_le u lowthr), (Hnone k u).
Qed.

Lemma start_scan_first_below_witness :
  (∀ (k : nat) (v : Q),
     Z.of_nat k < 3 →
     env_mid !! Z.to_nat (10 - Z.of_nat k) = Some v →
     (v < 8)%Q →
     (∀ (j : nat) (u : Q), (j < k)%nat →
        env_mid !! Z.to_nat (10 - Z.of_nat j) = Some u → (8 <= u)%Q) →
     start_scan env_mid 8 3 [10] 0 = <[0%nat := 10 - Z.of_nat k]> [10]) ∧
  ((∀ (j : nat) (u : Q), Z.of_nat j < 3 →
      env_mid !! Z.to_nat (10 - Z.of_nat j) = Some u → (8 <= u)%Q) →
   start_scan env_mid 8 3 [10] 0 = [10]).
Proof.
  apply (start_scan_first_below env_mid 8 3 [10] 0 10).
  - reflexivity.
  - lia.
  - lia.
  - vm_compute. reflexivity.
Defined.

(** ** The constructor and the store *)

Lemma Burst_init_zero_rate_witness :
  ∃ e, Burst_init (λ _, 6%Q) (λ _ _, [10; 60]) pass_band pass_decimate pass_rms
         (Some env_two) 0 = Raise e.
Proof.
  apply (Burst_init_zero_rate (λ _, 6%Q) (λ _ _, [10; 60]) pass_band
           pass_decimate pass_rms env_two 0).
  reflexivity.
Defined.

(** X9.  For an input rate from 1 to 11999 samples per second the window
    handed to [lfp.rms] is 0 samples. *)
Theorem low_rate_zero_window (srate : Q) :
  (1 <= srate)%Q → (srate <= 11999)%Q → rms_window srate = Ok 0.
Proof.
  intros Hlo Hhi.
  assert (2 ^ 40 == 1099511627776)%Q as E40 by reflexivity.
  assert (2 ^ (-50) == 1 # 1125899906842624)%Q as E50 by reflexivity.
  destruct (window_chain srate Hlo ltac:(rewrite E40; lra))
    as (mysrate & dt & g & Hm & Hdt & Hseg & Hg1 & Hg2).
  rewrite E50, Qdiv_60 in Hg1, Hg2.
  assert (0 <= g)%Q as Hg0 by lra.
  unfold rms_window. rewrite Hm. cbn [mbind result_bind].
  rewrite (window_chain_segment mysrate dt g Hdt Hseg Hg0). f_equal.
  pose proof (Qfloor_resp_le 0 g Hg0) as H0. change (Qfloor 0) with 0 in H0.
  pose proof (Qfloor_le g) as H1.
  assert (inject_Z (Qfloor g) < inject_Z 1)%Q as H2
    by (change (inject_Z 1) with 1%Q; lra).
  rewrite <- Zlt_Qlt in H2. lia.
Qed.

Lemma low_rate_zero_window_witness : rms_window 6000 = Ok 0.
Proof.
  apply (low_rate_zero_window 6000).
  - vm_compute. discriminate.
  - vm_compute. discriminate.
Defined.

Section StoreFacts.

Variable std : list Q → Q.
Variable find_peaks : list Q → Q → list Z.
Variable band_pass : list Q → Q → Q → Q → result (list Q).
Variable decimate : list Q → Z → result (list Q).
Variable rms : list Q → Z → result (list Q).

(** X10.  A call through a [Burst] object that returns has built an object
    whose length is 0 when no data was given and otherwise the number of
    large gaps between the peaks of the envelope, plus one, counted at
    the decimated rate [mysrate = srate/60]. *)
Theorem built_burst_len (h h' : gmap nat Burst) self data srate fresh_obj :
  Burst_call std find_peaks band_pass decimate rms self data srate h
    = (Ok fresh_obj, h') →
  match data with
  | None => Burst_len fresh_obj h' = Some 0%nat
  | Some d =>
      ∃ mysrate env,
        py_number_div srate 60 = Ok mysrate ∧
        rms_envelope_of band_pass decimate rms d srate env ∧
        Burst_len fresh_obj h'
        = Some (S (count_large_gaps mysrate
                     (find_peaks env (std env * 5)%Q)))
  end.
Proof.
  unfold Burst_call, Burst_new. intros Hcall.
  destruct (Burst_init std find_peaks band_pass decimate rms data srate)
    as [res|e] eqn:Hinit; [|discriminate].
  injection Hcall as <- <-.
  unfold Burst_len. rewrite lookup_insert_eq. cbn [fmap option_fmap option_map idx].
  destruct data as [d|].
  - destruct (Burst_init_Ok_inv _ _ _ _ _ _ _ _ Hinit)
      as (mysrate & env & Hrate & Henv & Hlb).
    exists mysrate, env. split; [done|]. split; [done|]. f_equal.
    by apply long_burst_length.
  - by injection Hinit as <-.
Qed.

(** X11.  A call through a [Burst] object never changes or removes an
    object already in the store; when it returns, the store has grown by
    exactly the new object, and when it raises, the store is as it was. *)
Theorem call_keeps_store (h : gmap nat Burst) self data srate l b :
  h !! l = Some b →
  (Burst_call std find_peaks band_pass decimate rms self data srate h).2
    !! l = Some b ∧
  match (Burst_call std find_peaks band_pass decimate rms self data srate h).1
  with
  | Ok o =>
      h !! o = None ∧
      dom (Burst_call std find_peaks band_pass decimate rms self data srate h).2
      = {[o]} ∪ dom h
  | Raise _ =>
      (Burst_call std find_peaks band_pass decimate rms self data srate h).2 = h
  end.
Proof.
  intros Hl. unfold Burst_call, Burst_new.
  destruct (Burst_init std find_peaks band_pass decimate rms data srate)
    as [res|e]; cbn [fst snd]; [|done].
  split; [|split].
  - rewrite lookup_insert_ne; [done|].
    by apply (fresh_not_allocated h l b).
  - apply not_elem_of_dom, is_fresh.
  - apply dom_insert_L.
Qed.

End StoreFacts.

Lemma built_burst_len_witness :
  ∃ mysrate env,
    py_number_div 1200 60 = Ok mysrate ∧
    rms_envelope_of pass_band pass_decimate pass_rms env_two 1200 env ∧
    Burst_len 1 (<[1%nat := mkBurst [(9, 10); (59, 60)]]>
                 {[0%nat := mkBurst []]})
    = Some (S (count_large_gaps mysrate [10; 60])).
Proof.
  apply (built_burst_len (λ _, 6%Q) (λ _ _, [10; 60]) pass_band pass_decimate
           pass_rms {[0%nat := mkBurst []]}
           (<[1%nat := mkBurst [(9, 10); (59, 60)]]> {[0%nat := mkBurst []]})
           0%nat (Some env_two) 1200 1%nat).
  vm_compute. reflexivity.
Defined.

Lemma call_keeps_store_witness :
  (Burst_call (λ _, 6%Q) (λ _ _, [10; 60]) pass_band pass_decimate pass_rms
     0 (Some env_two) 1200 {[0%nat := mkBurst []]}).2 !! 0%nat
    = Some (mkBurst []) ∧
  match (Burst_call (λ _, 6%Q) (λ _ _, [10; 60]) pass_band pass_decimate
           pass_rms 0 (Some env_two) 1200 {[0%nat := mkBurst []]}).1
  with
  | Ok o =>
      ({[0%nat := mkBurst []]} : gmap nat Burst) !! o = None ∧
      dom (Burst_call (λ _, 6%Q) (λ _ _, [10; 60]) pass_band pass_decimate
             pass_rms 0 (Some env_two) 1200 {[0%nat := mkBurst []]}).2
      = {[o]} ∪ dom ({[0%nat := mkBurst []]} : gmap nat Burst)
  | Raise _ =>
      (Burst_call (λ _, 6%Q) (λ _ _, [10; 60]) pass_band pass_decimate
         pass_rms 0 (Some env_two) 1200 {[0%nat := mkBurst []]}).2
      = {[0%nat := mkBurst []]}
  end.
Proof.
  apply (call_keeps_store (λ _, 6%Q) (λ _ _, [10; 60]) pass_band pass_decimate
           pass_rms {[0%nat := mkBurst []]} 0%nat (Some env_two) 1200
           0%nat (mkBurst [])).
  reflexivity.
Defined.
